(** * A shallow embedding of the WebRTC screen-sharing relay

    The relay (namespace [receiver]) is event-driven C++: two websocket
    listeners ([sink_server], [source_server]) own per-socket peer adapters
    ([webrtc_observer]) that talk to the media engine.  Every handler is
    embedded as a function in a small state/exception/trace monad: the state
    is the C++ object the handler is a member of, the exception is the C++
    exception that escapes it, and the trace lists, in program order, the
    calls the handler makes on its collaborators (the log, the sockets, the
    peer connection).  Answers of the media engine are read from an [engine]
    record; asynchronous engine operations appear in the trace together with
    the observer object that will receive their completion. *)

From Stdlib Require Import ZArith.
From stdpp Require Import gmap strings list fin_maps.

Open Scope Z_scope.

(** ** Handles of the collaborators *)

(** Reference-counted engine and socket objects are identified by their
    address. *)
Abbreviation connection_ptr := nat (only parsing).
Abbreviation connection_hdl := nat (only parsing).
Abbreviation peercon_ptr := nat (only parsing).
Abbreviation sender_ptr := nat (only parsing).
Abbreviation track_ptr := nat (only parsing).
Abbreviation transceiver_ptr := nat (only parsing).

Inductive level := error | warning | info.

Definition name (l : level) : string :=
  match l with
  | error => "error"
  | warning => "warning"
  | info => "info"
  end.

(** One argument of a [log] call. [TThis] is the address of the object that
    logs, [TPtr] the address of an engine object. *)
Inductive token :=
| TStr (s : string)
| TInt (z : Z)
| TThis
| TPtr (p : nat).

Record RTCError := { ok : bool; message : string }.

Definition RTCError_OK : RTCError := {| ok := true; message := "" |}.

Inductive RTCErrorOr (A : Type) :=
| Value (a : A)
| Failure (e : RTCError).
Arguments Value {A} a.
Arguments Failure {A} e.

Inductive SdpType := kOffer | kPrAnswer | kAnswer | kRollback.

Definition SdpTypeToString (t : SdpType) : string :=
  match t with
  | kOffer => "offer"
  | kPrAnswer => "pranswer"
  | kAnswer => "answer"
  | kRollback => "rollback"
  end.

Definition SdpTypeFromString (s : string) : option SdpType :=
  if String.eqb s "offer" then Some kOffer
  else if String.eqb s "pranswer" then Some kPrAnswer
  else if String.eqb s "answer" then Some kAnswer
  else if String.eqb s "rollback" then Some kRollback
  else None.

Inductive SignalingState :=
| kStable
| kHaveLocalOffer
| kHaveLocalPrAnswer
| kHaveRemoteOffer
| kHaveRemotePrAnswer
| kClosed.

Definition SignalingState_eqb (a b : SignalingState) : bool :=
  match a, b with
  | kStable, kStable
  | kHaveLocalOffer, kHaveLocalOffer
  | kHaveLocalPrAnswer, kHaveLocalPrAnswer
  | kHaveRemoteOffer, kHaveRemoteOffer
  | kHaveRemotePrAnswer, kHaveRemotePrAnswer
  | kClosed, kClosed => true
  | _, _ => false
  end.

Inductive SdpSemantics := kPlanB_DEPRECATED | kUnifiedPlan.

Record IceServer := { uri : string; username : string; password : string }.

Record RTCConfiguration :=
  { sdp_semantics : SdpSemantics; servers : list IceServer }.

Record IceCandidate :=
  { sdp_mid : string; sdp_mline_index : Z; candidate_sdp : string }.

(** ** boost::json values *)

#[warnings="-register-all"]
Inductive json :=
| JNull
| JBool (b : bool)
| JInt64 (z : Z)
| JUint64 (z : Z)
| JDouble (repr : string)
| JString (s : string)
| JArray (l : list json)
| JObject (members : list (string * json)).

Abbreviation json_object := (list (string * json)) (only parsing).

(** C++ exceptions that can leave a handler. *)
Inductive exn :=
| json_error                      (* boost::system::system_error *)
| bad_optional_access
| runtime_error (what : string).

Fixpoint find_member (o : json_object) (k : string) : option json :=
  match o with
  | [] => None
  | (k', v) :: o' => if String.eqb k' k then Some v else find_member o' k
  end.

Definition contains (o : json_object) (k : string) : bool :=
  match find_member o k with Some _ => true | None => false end.

(** [o[k]] on a mutable object: a missing key reads as a fresh null. *)
Definition member (o : json_object) (k : string) : json :=
  match find_member o k with Some v => v | None => JNull end.

Definition as_object (v : json) : json_object + exn :=
  match v with JObject o => inl o | _ => inr json_error end.

Definition as_string (v : json) : string + exn :=
  match v with JString s => inl s | _ => inr json_error end.

Definition as_int64 (v : json) : Z + exn :=
  match v with JInt64 z => inl z | _ => inr json_error end.

Definition value {A} (o : option A) : A + exn :=
  match o with Some a => inl a | None => inr bad_optional_access end.

(** Conversion of a 64-bit integer to [int] (32 bits, two's complement). *)
Definition to_int (z : Z) : Z := (z + 2 ^ 31) mod 2 ^ 32 - 2 ^ 31.

Definition newline : string := String (Ascii.ascii_of_nat 10) EmptyString.

(** A websocket frame.  [get_payload] is the frame's text as seen through
    [boost::json::parse]: [None] when the text is not well-formed JSON (the
    parser throws), [Some v] for the value it denotes. *)
Record message_ptr := { get_opcode : Z; get_payload : option json }.

Definition parse (payload : option json) : json + exn :=
  match payload with Some v => inl v | None => inr json_error end.

Inductive close_status := going_away | subprotocol_error.

Inductive endpoint := source_endpoint | sink_endpoint.

(** ** Observers of asynchronous engine operations *)

Record local_desc_observer :=
  { ldo_peer : peercon_ptr; ldo_socket : connection_ptr }.

Record remote_desc_observer :=
  { rdo_peer : peercon_ptr;
    rdo_observer : local_desc_observer;
    rdo_is_offer : bool }.

(** ** Calls on collaborators, in program order *)

Inductive effect :=
| Log (severity : level) (args : list token)
| SocketSend (socket : connection_ptr) (frame : json)
| SocketClose (socket : connection_ptr) (code : close_status) (reason : string)
| SetMessageHandler (socket : connection_ptr)
| PeerClose (peer : peercon_ptr)
| RemoveTrack (peer : peercon_ptr) (sender : sender_ptr)
| AddTrack (peer : peercon_ptr) (track : track_ptr) (stream_ids : list string)
| SetRemoteDescription (peer : peercon_ptr) (type : SdpType) (sdp : string)
    (observer : remote_desc_observer)
| SetLocalDescription (peer : peercon_ptr) (observer : local_desc_observer)
| AddIceCandidate (peer : peercon_ptr) (candidate : IceCandidate)
| StopListening (e : endpoint)
| Stop (e : endpoint)
| Join (e : endpoint)
| ReleaseTransceiver (t : transceiver_ptr)
| ReleaseFactory
| StopSignalThread.

(** ** The media engine as seen by the relay *)

Record engine :=
  { CreatePeerConnectionOrError : RTCConfiguration -> RTCErrorOr peercon_ptr;
    signaling_state : peercon_ptr -> SignalingState;
    ShouldFireNegotiationNeededEvent : peercon_ptr -> Z -> bool;
    RemoveTrackOrError : peercon_ptr -> sender_ptr -> RTCError;
    AddTrack_result : peercon_ptr -> track_ptr -> list string -> RTCErrorOr sender_ptr;
    receiver_track : transceiver_ptr -> track_ptr;
    enabled : track_ptr -> bool;
    CreateIceCandidate : string -> Z -> string -> IceCandidate + string }.

(** ** The handler monad *)

Record outcome (S A : Type) :=
  Outcome { result : A + exn; state : S; trace : list effect }.
Arguments Outcome {S A} result state trace.
Arguments result {S A} o.
Arguments state {S A} o.
Arguments trace {S A} o.

Definition M (S A : Type) : Type := S -> outcome S A.

Definition ret {S A} (a : A) : M S A := fun s => Outcome (inl a) s [].

Definition throw {S A} (e : exn) : M S A := fun s => Outcome (inr e) s [].

Definition bind {S A B} (m : M S A) (k : A -> M S B) : M S B :=
  fun s =>
    match m s with
    | Outcome (inl a) s1 t1 =>
        match k a s1 with
        | Outcome r s2 t2 => Outcome r s2 (t1 ++ t2)
        end
    | Outcome (inr e) s1 t1 => Outcome (inr e) s1 t1
    end.

Notation "x <- m ;; k" := (bind m (fun x => k))
  (at level 100, m at next level, right associativity).
Notation "m ;;; k" := (bind m (fun _ => k))
  (at level 100, right associativity).

Definition get {S} : M S S := fun s => Outcome (inl s) s [].
Definition put {S} (s : S) : M S unit := fun _ => Outcome (inl tt) s [].
Definition modify {S} (f : S -> S) : M S unit := fun s => Outcome (inl tt) (f s) [].
Definition emit {S} (e : effect) : M S unit := fun s => Outcome (inl tt) s [e].
Definition log {S} (severity : level) (args : list token) : M S unit :=
  emit (Log severity args).

(** A value that may throw, evaluated inside a handler. *)
Definition lift {S A} (v : A + exn) : M S A :=
  match v with inl a => ret a | inr e => throw e end.

(** Run a member function of another object [s'] from inside a handler of
    [S]; the object's new state is handed back with the result. *)
Definition on_object {S S' A} (s' : S') (m : M S' A) : M S (A * S') :=
  fun s =>
    match m s' with
    | Outcome (inl a) s1' t => Outcome (inl (a, s1')) s t
    | Outcome (inr e) _ t => Outcome (inr e) s t
    end.

(** ** class webrtc_observer: one peer adapter per signaling socket *)

(** What the adapter's [on_track] callback is bound to: the empty lambda of a
    sink adapter, or the source endpoint's [on_track]. *)
Inductive track_callback := ignore_track | forward_to_source_server.

Module webrtc_observer.

Record t :=
  { peer : peercon_ptr;
    signal_socket : connection_ptr;
    on_track : track_callback;
    current_sender : option sender_ptr;
    ignore_offer : bool;
    making_offer : bool }.

Definition set_ignore_offer (b : bool) (a : t) : t :=
  {| peer := peer a; signal_socket := signal_socket a; on_track := on_track a;
     current_sender := current_sender a; ignore_offer := b;
     making_offer := making_offer a |}.

Definition set_making_offer (b : bool) (a : t) : t :=
  {| peer := peer a; signal_socket := signal_socket a; on_track := on_track a;
     current_sender := current_sender a; ignore_offer := ignore_offer a;
     making_offer := b |}.

Definition polite : bool := false.

Definition config : RTCConfiguration :=
  {| sdp_semantics := kUnifiedPlan;
     servers := [ {| uri := "turn:54.200.166.206:3478?transport=tcp";
                     username := "user";
                     password := "root" |} ] |}.

Definition create_peer (eng : engine) : M unit peercon_ptr :=
  match CreatePeerConnectionOrError eng config with
  | Failure _ => throw (runtime_error "failed to create PeerConnection")
  | Value pc =>
      log info [TStr ("created PeerConnection" +:+ newline)] ;;;
      ret pc
  end.

(** The constructor, reached through [webrtc_observer::make]. *)
Definition make (eng : engine) (socket : connection_ptr)
    (callback : track_callback) : M unit t :=
  pc <- create_peer eng ;;
  emit (SetMessageHandler socket) ;;;
  ret {| peer := pc; signal_socket := socket; on_track := callback;
         current_sender := None; ignore_offer := false;
         making_offer := false |}.

Definition close : M t unit :=
  this <- get ;;
  emit (PeerClose (peer this)) ;;;
  log info [TThis; TStr "closing peer"].

(** The destructor. *)
Definition destroy : M t unit := close.

Definition switch_track (eng : engine) (transceiver : transceiver_ptr)
    : M t unit :=
  this <- get ;;
  removed <-
    match current_sender this with
    | Some sender =>
        log info [TStr "removing existing track sender"] ;;;
        emit (RemoveTrack (peer this) sender) ;;;
        let maybe_removed := RemoveTrackOrError eng (peer this) sender in
        if negb (ok maybe_removed) then
          log error [TStr "failed to remove existing track from peer:";
                     TStr (message maybe_removed)] ;;;
          ret false
        else ret true
    | None => ret true
    end ;;
  if negb removed then ret tt
  else
    let real_track := receiver_track eng transceiver in
    emit (AddTrack (peer this) real_track ["mirrored_stream"]) ;;;
    match AddTrack_result eng (peer this) real_track ["mirrored_stream"] with
    | Failure e => log error [TStr "failed to add track:"; TStr (message e)]
    | Value _ => log info [TStr "added track to peer"]
    end.

Definition on_message (eng : engine) (hdl : connection_hdl)
    (msg : message_ptr) : M t unit :=
  let opcode := get_opcode msg in
  if negb (opcode =? 1) then
    log warning [TThis; TStr "I don't know how to use this frame"; TInt opcode]
  else
    payload <- lift (match parse (get_payload msg) with
                     | inl v => as_object v
                     | inr e => inr e
                     end) ;;
    if contains payload "description" then
      offer <- lift (as_object (member payload "description")) ;;
      type <- lift (as_string (member offer "type")) ;;
      this <- get ;;
      let offer_collision :=
        String.eqb type "offer" &&
        (making_offer this ||
         negb (SignalingState_eqb (signaling_state eng (peer this)) kStable)) in
      modify (set_ignore_offer (negb polite && offer_collision)) ;;;
      this <- get ;;
      if ignore_offer this then ret tt
      else
        (* the two arguments of CreateSessionDescription are taken left to
           right here (C++ leaves their order open) and the strings whole
           (the source passes c_str(), which stops at a NUL) *)
        sdp_type <- lift (value (SdpTypeFromString type)) ;;
        sdp <- lift (as_string (member offer "sdp")) ;;
        let is_offer := String.eqb type "offer" in
        emit (SetRemoteDescription (peer this) sdp_type sdp
                {| rdo_peer := peer this;
                   rdo_observer := {| ldo_peer := peer this;
                                      ldo_socket := signal_socket this |};
                   rdo_is_offer := is_offer |})
    else if contains payload "candidate" then
      blob <- lift (as_object (member payload "candidate")) ;;
      mid <- lift (as_string (member blob "sdpMid")) ;;
      index <- lift (as_int64 (member blob "sdpMLineIndex")) ;;
      sdp <- lift (as_string (member blob "candidate")) ;;
      match CreateIceCandidate eng mid (to_int index) sdp with
      | inr description =>
          log error [TThis; TStr "failed to parse ICE candidate: ";
                     TStr description]
      | inl candidate =>
          this <- get ;;
          emit (AddIceCandidate (peer this) candidate)
      end
    else ret tt.

(** The completion lambda handed to [AddIceCandidate]. *)
Definition on_add_ice_candidate_complete (err : RTCError) : M t unit :=
  if negb (ok err) then
    log error [TThis; TStr "failed to set ICE candidate with error:";
               TStr (message err)]
  else ret tt.

(** The task that [OnNegotiationNeededEvent] posts to the signal thread. *)
Definition OnNegotiationNeededEvent (eng : engine) (id : Z) : M t unit :=
  this <- get ;;
  if ShouldFireNegotiationNeededEvent eng (peer this) id then
    modify (set_making_offer true) ;;;
    emit (SetLocalDescription (peer this)
            {| ldo_peer := peer this; ldo_socket := signal_socket this |}) ;;;
    modify (set_making_offer false)
  else ret tt.

Definition SignalingState_name (s : SignalingState) : string :=
  match s with
  | kStable => "kStable"
  | kHaveLocalOffer => "kHaveLocalOffer"
  | kHaveLocalPrAnswer => "kHaveLocalPrAnswer"
  | kHaveRemoteOffer => "kHaveRemoteOffer"
  | kHaveRemotePrAnswer => "kHaveRemotePrAnswer"
  | kClosed => "kClosed"
  end.

Definition OnSignalingChange (new_state : SignalingState) : M t unit :=
  log info [TThis; TStr "Signaling state change:";
            TStr (SignalingState_name new_state)].

Definition OnDataChannel : M t unit :=
  log info [TThis; TStr "Added data channel to peer"].

Definition OnIceCandidate (candidate : IceCandidate)
    (to_string : option string) : M t unit :=
  match to_string with
  | None => log error [TThis; TStr "failed to serialize ICE candidate"]
  | Some blob =>
      this <- get ;;
      emit (SocketSend (signal_socket this)
              (JObject [("candidate",
                         JObject [("candidate", JString blob);
                                  ("sdpMid", JString (sdp_mid candidate));
                                  ("sdpMLineIndex",
                                   JInt64 (sdp_mline_index candidate))])]))
  end.

End webrtc_observer.

(** ** The two description observers *)

(** [local_desc_observer::OnSetLocalDescriptionComplete]. [desc] is the
    peer's local description at that moment: its type and, when it
    serializes, its SDP text. *)
Definition OnSetLocalDescriptionComplete (err : RTCError)
    (desc : SdpType * option string) : M local_desc_observer unit :=
  if negb (ok err) then
    log error [TThis; TStr "SetLocalDescription failed:"; TStr (message err)]
  else
    log info [TThis; TStr "SetLocalDescription succeeded"] ;;;
    match snd desc with
    | None => log error [TThis; TStr "failed to serialize SDP"]
    | Some sdp =>
        this <- get ;;
        emit (SocketSend (ldo_socket this)
                (JObject [("description",
                           JObject [("type", JString (SdpTypeToString (fst desc)));
                                    ("sdp", JString sdp)])]))
    end.

(** [remote_desc_observer::OnSetRemoteDescriptionComplete]: the error is not
    looked at. *)
Definition OnSetRemoteDescriptionComplete (err : RTCError)
    : M remote_desc_observer unit :=
  this <- get ;;
  if rdo_is_offer this then
    emit (SetLocalDescription (rdo_peer this) (rdo_observer this))
  else ret tt.

(** A range-for loop. Over a registry the entries are taken in the order of
    [map_to_list]; [std::map] goes by ascending key, so the order among the
    entries of a registry in a trace is the model's, not the program's. *)
Fixpoint for_each {S A} (l : list A) (body : A -> M S unit) : M S unit :=
  match l with
  | [] => ret tt
  | x :: l' => body x ;;; for_each l' body
  end.

(** Dropping the last reference to an adapter runs its destructor. *)
Definition release {S} (p : option webrtc_observer.t) : M S unit :=
  match p with
  | Some a => _ <- on_object a webrtc_observer.destroy ;; ret tt
  | None => ret tt
  end.

(** ** class socket_server: what both endpoints inherit *)

Module socket_server.

Definition shut_down {S} (e : endpoint) : M S unit :=
  emit (StopListening e) ;;;
  (* self().close_all() is commented out in the source *)
  emit (Stop e) ;;;
  emit (Join e).

End socket_server.

(** ** class sink_server: the sink endpoint and the fan-out *)

Module sink_server.

Record t :=
  { connections : gmap nat webrtc_observer.t;
    transceiver : option transceiver_ptr }.

Definition set_connections (f : gmap nat webrtc_observer.t ->
                                gmap nat webrtc_observer.t) (s : t) : t :=
  {| connections := f (connections s); transceiver := transceiver s |}.

Definition set_transceiver (tr : option transceiver_ptr) (s : t) : t :=
  {| connections := connections s; transceiver := tr |}.

(** The constructor. *)
Definition init : t := {| connections := ∅; transceiver := None |}.

Definition on_open (eng : engine) (hdl : connection_hdl) : M t unit :=
  log info [TStr "New sink has appeared"] ;;;
  let new_connection := hdl in
  this <- get ;;
  match connections this !! new_connection with
  | None =>
      made <- on_object tt
                (webrtc_observer.make eng new_connection ignore_track) ;;
      let peer := fst made in
      peer <- match transceiver this with
              | Some tr =>
                  switched <- on_object peer
                                (webrtc_observer.switch_track eng tr) ;;
                  ret (snd switched)
              | None => ret peer
              end ;;
      modify (set_connections (insert new_connection peer))
  | Some _ => ret tt
  end.

Definition on_close (hdl : connection_hdl) : M t unit :=
  let new_connection := hdl in
  this <- get ;;
  match connections this !! new_connection with
  | Some peer =>
      log warning [TStr "source disconnected"] ;;;
      release (Some peer) ;;;
      modify (set_connections (delete new_connection))
  | None => ret tt
  end.

Definition on_message : M t unit := ret tt.

Definition close_all : M t unit :=
  log info [TStr "closing source connections"] ;;;
  this <- get ;;
  for_each (map_to_list (connections this))
    (fun entry =>
       emit (SocketClose (fst entry) going_away "Server shutting down") ;;;
       release (Some (snd entry))) ;;;
  modify (set_connections (fun _ => ∅)).

Definition switch_source (eng : engine) (tr : transceiver_ptr) : M t unit :=
  log info [TStr "switching sources"] ;;;
  modify (set_transceiver (Some tr)) ;;;
  this <- get ;;
  for_each (map_to_list (connections this))
    (fun entry =>
       switched <- on_object (snd entry)
                     (webrtc_observer.switch_track eng tr) ;;
       modify (set_connections (insert (fst entry) (snd switched)))).

(** The destructor: members go in reverse order of declaration. *)
Definition destroy : M t unit :=
  this <- get ;;
  match transceiver this with
  | Some tr => emit (ReleaseTransceiver tr)
  | None => ret tt
  end ;;;
  for_each (map_to_list (connections this))
    (fun entry => release (Some (snd entry))).

End sink_server.

(** ** class source_server: the source endpoint *)

Module source_server.

Record t :=
  { connection : option connection_ptr;
    peer : option webrtc_observer.t }.

Definition set_connection (c : option connection_ptr) (s : t) : t :=
  {| connection := c; peer := peer s |}.

Definition set_peer (p : option webrtc_observer.t) (s : t) : t :=
  {| connection := connection s; peer := p |}.

(** The constructor. *)
Definition init : t := {| connection := None; peer := None |}.

Definition on_open (eng : engine) (hdl : connection_hdl) : M t unit :=
  let new_connection := hdl in
  this <- get ;;
  match connection this with
  | Some _ =>
      log warning [TStr "rejecting sink connection; one already exists"]
  | None =>
      modify (set_connection (Some new_connection)) ;;;
      made <- on_object tt
                (webrtc_observer.make eng new_connection
                   forward_to_source_server) ;;
      modify (set_peer (Some (fst made))) ;;;
      release (peer this)
  end.

Definition on_close (hdl : connection_hdl) : M t unit :=
  let new_connection := hdl in
  this <- get ;;
  if bool_decide (connection this = Some new_connection) then
    log warning [TStr "source disconnected"] ;;;
    modify (set_connection None) ;;;
    modify (set_peer None) ;;;
    release (peer this)
  else ret tt.

Definition on_message : M t unit := ret tt.

Definition close_all : M t unit :=
  this <- get ;;
  match connection this with
  | Some c =>
      log info [TStr "closing source connection"] ;;;
      emit (SocketClose c going_away "Server shutting down") ;;;
      modify (set_peer None) ;;;
      release (peer this)
  | None => ret tt
  end.

(** The destructor. *)
Definition destroy : M t unit :=
  this <- get ;;
  release (peer this).

End source_server.

(** ** The process: both endpoints, the source holding a reference to the
    sink *)

Record relay := { sink : sink_server.t; source : source_server.t }.

Definition in_sink {A} (m : M sink_server.t A) : M relay A :=
  fun r =>
    match m (sink r) with
    | Outcome res s t => Outcome res {| sink := s; source := source r |} t
    end.

Definition in_source {A} (m : M source_server.t A) : M relay A :=
  fun r =>
    match m (source r) with
    | Outcome res s t => Outcome res {| sink := sink r; source := s |} t
    end.

(** [source_server::on_track], which reaches into the sink endpoint. *)
Definition source_server_on_track (eng : engine) (track : transceiver_ptr)
    : M relay unit :=
  log info [TStr "track added"; TPtr track] ;;;
  (if enabled eng (receiver_track eng track)
   then log info [TStr "track enabled"; TPtr track]
   else ret tt) ;;;
  in_sink (sink_server.switch_source eng track).

(** [webrtc_observer::OnTrack]: run the callback the adapter was built
    with. *)
Definition OnTrack (eng : engine) (a : webrtc_observer.t)
    (tr : transceiver_ptr) : M relay unit :=
  match webrtc_observer.on_track a with
  | ignore_track => ret tt
  | forward_to_source_server => source_server_on_track eng tr
  end.

(** [~webrtc_factory]: the factory reference goes first, then the signal
    thread. *)
Definition webrtc_factory_destroy {S} : M S unit :=
  emit ReleaseFactory ;;; emit StopSignalThread.

(** What [main] runs once the console loop ends: the locals of the [try]
    block are destroyed in reverse order of construction ([sink_session],
    [source_session], [source], [sink]), then [factory]. *)
Definition main_shutdown : M relay unit :=
  in_sink (socket_server.shut_down sink_endpoint) ;;;
  in_source (socket_server.shut_down source_endpoint) ;;;
  in_source source_server.destroy ;;;
  in_sink sink_server.destroy ;;;
  webrtc_factory_destroy.

(** * Properties *)

(** An engine on which every request succeeds, and some adapters and
    endpoints, to run the handlers on. *)
Definition healthy_engine_for (pc : nat) : engine :=
  {| CreatePeerConnectionOrError := fun _ => Value pc;
     signaling_state := fun _ => kStable;
     ShouldFireNegotiationNeededEvent := fun _ _ => true;
     RemoveTrackOrError := fun _ _ => RTCError_OK;
     AddTrack_result := fun _ _ _ => Value 7%nat;
     receiver_track := fun tr => (tr + 1000)%nat;
     enabled := fun _ => true;
     CreateIceCandidate := fun mid index sdp =>
       inl {| sdp_mid := mid; sdp_mline_index := index; candidate_sdp := sdp |} |}.

Definition healthy_engine : engine := healthy_engine_for 100.

Definition fresh_adapter (pc socket : nat) (callback : track_callback)
    : webrtc_observer.t :=
  {| webrtc_observer.peer := pc;
     webrtc_observer.signal_socket := socket;
     webrtc_observer.on_track := callback;
     webrtc_observer.current_sender := None;
     webrtc_observer.ignore_offer := false;
     webrtc_observer.making_offer := false |}.

Definition is_SocketClose (e : effect) : bool :=
  match e with SocketClose _ _ _ => true | _ => false end.

Definition is_PeerClose (e : effect) : bool :=
  match e with PeerClose _ => true | _ => false end.

Definition is_Log (severity : level) (e : effect) : bool :=
  match e, severity with
  | Log error _, error | Log warning _, warning | Log info _, info => true
  | _, _ => false
  end.

(** Handlers are unfolded down to the monad's primitives. *)
Ltac run_handler :=
  cbv [bind ret throw get put modify emit log lift on_object release
       in_sink in_source for_each]; cbn.

(** ** Source endpoint: a second source while one is connected *)

(** C1. A source accept that arrives while a source connection is already set
    logs a warning and leaves the connection slot and its adapter as they
    were, but it returns without closing the new socket: the trace holds the
    warning only, no close with any reason. *)
Theorem source_on_open_duplicate_not_closed :
  forall (eng : engine) (c : nat) (p : option webrtc_observer.t) (hdl : nat),
    let s := {| source_server.connection := Some c; source_server.peer := p |} in
    let o := source_server.on_open eng hdl s in
    o = Outcome (inl tt) s
          [Log warning [TStr "rejecting sink connection; one already exists"]]
    /\ existsb is_SocketClose (trace o) = false.
Proof.
  intros eng c p hdl s o. subst o s. split; reflexivity.
Qed.

(** ** Peer adapter: negotiation needed *)

(** C2. The task posted for a negotiation-needed event sets [making_offer],
    requests the local description and clears [making_offer] again at once:
    when the task returns the request is still outstanding (its completion
    goes to a [local_desc_observer], which has no access to the adapter),
    and the flag is already false. *)
Theorem negotiation_needed_flag_cleared_before_completion :
  forall (eng : engine) (id : Z) (a : webrtc_observer.t),
    webrtc_observer.OnNegotiationNeededEvent eng id a =
    if ShouldFireNegotiationNeededEvent eng (webrtc_observer.peer a) id
    then Outcome (inl tt) (webrtc_observer.set_making_offer false a)
           [SetLocalDescription (webrtc_observer.peer a)
              {| ldo_peer := webrtc_observer.peer a;
                 ldo_socket := webrtc_observer.signal_socket a |}]
    else Outcome (inl tt) a [].
Proof.
  intros eng id a. unfold webrtc_observer.OnNegotiationNeededEvent.
  run_handler.
  destruct (ShouldFireNegotiationNeededEvent eng (webrtc_observer.peer a) id);
    reflexivity.
Qed.

(** An offer that reaches the adapter right after that task, the engine
    still reporting a stable signaling state, is not taken for a collision. *)
Example offer_after_negotiation_needed_not_ignored :
  let a := state (webrtc_observer.OnNegotiationNeededEvent healthy_engine 0
                    (fresh_adapter 100 2 ignore_track)) in
  webrtc_observer.on_message healthy_engine 2
    {| get_opcode := 1;
       get_payload :=
         Some (JObject [("description",
                         JObject [("type", JString "offer");
                                  ("sdp", JString "v=0")])]) |} a =
  Outcome (inl tt) a
    [SetRemoteDescription 100 kOffer "v=0"
       {| rdo_peer := 100%nat;
          rdo_observer := {| ldo_peer := 100%nat; ldo_socket := 2%nat |};
          rdo_is_offer := true |}].
Proof. reflexivity. Qed.

(** ** Peer adapter: publishing a track *)

Arguments webrtc_observer.switch_track : simpl never.

Lemma switch_track_state :
  forall (eng : engine) (tr : nat) (a : webrtc_observer.t),
    state (webrtc_observer.switch_track eng tr a) = a.
Proof.
  intros eng tr a. unfold webrtc_observer.switch_track. run_handler.
  destruct (webrtc_observer.current_sender a) as [sender|]; cbn.
  - destruct (ok (RemoveTrackOrError eng (webrtc_observer.peer a) sender)); cbn;
      [|reflexivity].
    destruct (AddTrack_result eng (webrtc_observer.peer a) (receiver_track eng tr)
                ["mirrored_stream"]); reflexivity.
  - destruct (AddTrack_result eng (webrtc_observer.peer a) (receiver_track eng tr)
                ["mirrored_stream"]); reflexivity.
Qed.

Lemma switch_track_result :
  forall (eng : engine) (tr : nat) (a : webrtc_observer.t),
    result (webrtc_observer.switch_track eng tr a) = inl tt.
Proof.
  intros eng tr a. unfold webrtc_observer.switch_track. run_handler.
  destruct (webrtc_observer.current_sender a) as [sender|]; cbn.
  - destruct (ok (RemoveTrackOrError eng (webrtc_observer.peer a) sender)); cbn;
      [|reflexivity].
    destruct (AddTrack_result eng (webrtc_observer.peer a) (receiver_track eng tr)
                ["mirrored_stream"]); reflexivity.
  - destruct (AddTrack_result eng (webrtc_observer.peer a) (receiver_track eng tr)
                ["mirrored_stream"]); reflexivity.
Qed.

Lemma switch_track_outcome :
  forall (eng : engine) (tr : nat) (a : webrtc_observer.t),
    webrtc_observer.switch_track eng tr a =
    Outcome (inl tt) a (trace (webrtc_observer.switch_track eng tr a)).
Proof.
  intros eng tr a.
  pose proof (switch_track_state eng tr a) as Hs.
  pose proof (switch_track_result eng tr a) as Hr.
  destruct (webrtc_observer.switch_track eng tr a) as [r s t].
  cbn in Hs, Hr |- *. now subst.
Qed.

(** C3. [switch_track] on a fresh sink adapter, with an engine whose
    add-track succeeds and returns sender 7: the track is added, success is
    logged, and [current_sender] is still empty afterwards; in general
    [switch_track] never changes [current_sender]. *)
Theorem switch_track_sender_not_stored :
  let a := fresh_adapter 100 2 ignore_track in
  webrtc_observer.switch_track healthy_engine 5 a =
    Outcome (inl tt) a
      [AddTrack 100 1005 ["mirrored_stream"];
       Log info [TStr "added track to peer"]]
  /\ AddTrack_result healthy_engine 100 1005 ["mirrored_stream"] = Value 7%nat
  /\ forall (eng : engine) (tr : nat) (b : webrtc_observer.t),
       webrtc_observer.current_sender
         (state (webrtc_observer.switch_track eng tr b)) =
       webrtc_observer.current_sender b.
Proof.
  cbn zeta. split; [reflexivity|]. split; [reflexivity|].
  intros eng tr b. now rewrite switch_track_state.
Qed.

(** ** Peer adapter: a remote candidate that the engine rejects *)

(** C4. The completion of [AddIceCandidate] logs every failure, whatever
    [ignore_offer] is: with [ignore_offer] true the error is logged too. It
    never closes the peer or the socket and leaves the adapter as it was. *)
Theorem ice_candidate_failure_logged_when_ignoring :
  forall (err : RTCError) (a : webrtc_observer.t),
    webrtc_observer.on_add_ice_candidate_complete err
      (webrtc_observer.set_ignore_offer true a) =
    Outcome (inl tt) (webrtc_observer.set_ignore_offer true a)
      (if ok err then []
       else [Log error [TThis; TStr "failed to set ICE candidate with error:";
                        TStr (message err)]]).
Proof.
  intros err a. unfold webrtc_observer.on_add_ice_candidate_complete.
  destruct (ok err); reflexivity.
Qed.

(** ** Peer adapter: inbound signaling messages *)

Definition is_offer (ty : SdpType) : bool :=
  match ty with kOffer => true | _ => false end.

Lemma type_of_string_of_type :
  forall ty : SdpType, SdpTypeFromString (SdpTypeToString ty) = Some ty.
Proof. intros []; reflexivity. Qed.

Lemma offer_string_is_offer :
  forall ty : SdpType, String.eqb (SdpTypeToString ty) "offer" = is_offer ty.
Proof. intros []; reflexivity. Qed.

Lemma contains_found :
  forall (o : list (string * json)) (k : string) (v : json),
    find_member o k = Some v -> contains o k = true /\ member o k = v.
Proof. intros o k v H. unfold contains, member. now rewrite H. Qed.

(** C5. A text frame carrying [{description: {type, sdp}}] with one of the
    four description types: the adapter computes the collision as "type is
    offer and (making_offer or signaling state not stable)", stores it in
    [ignore_offer], and on a collision returns with no call on the peer
    connection; otherwise it asks the engine to set the remote description,
    with an observer that, for an offer, requests the local description once
    the remote one has been applied; when that request succeeds the local
    description is sent on the adapter's socket as [{description: ...}]. *)
Theorem on_message_description :
  forall (eng : engine) (hdl : nat) (msg : message_ptr)
         (payload offer : list (string * json)) (ty : SdpType) (sdp : string)
         (a : webrtc_observer.t),
    get_opcode msg = 1 ->
    get_payload msg = Some (JObject payload) ->
    find_member payload "description" = Some (JObject offer) ->
    find_member offer "type" = Some (JString (SdpTypeToString ty)) ->
    find_member offer "sdp" = Some (JString sdp) ->
    let offer_collision :=
      is_offer ty &&
      (webrtc_observer.making_offer a ||
       negb (SignalingState_eqb
               (signaling_state eng (webrtc_observer.peer a)) kStable)) in
    let answerer :=
      {| ldo_peer := webrtc_observer.peer a;
         ldo_socket := webrtc_observer.signal_socket a |} in
    let observer :=
      {| rdo_peer := webrtc_observer.peer a;
         rdo_observer := answerer;
         rdo_is_offer := is_offer ty |} in
    webrtc_observer.on_message eng hdl msg a =
      Outcome (inl tt) (webrtc_observer.set_ignore_offer offer_collision a)
        (if offer_collision then []
         else [SetRemoteDescription (webrtc_observer.peer a) ty sdp observer])
    /\ (forall err : RTCError,
          trace (OnSetRemoteDescriptionComplete err observer) =
          if is_offer ty
          then [SetLocalDescription (webrtc_observer.peer a) answerer]
          else [])
    /\ (forall (local_type : SdpType) (local_sdp : string),
          trace (OnSetLocalDescriptionComplete RTCError_OK
                   (local_type, Some local_sdp) answerer) =
          [Log info [TThis; TStr "SetLocalDescription succeeded"];
           SocketSend (webrtc_observer.signal_socket a)
             (JObject [("description",
                        JObject [("type", JString (SdpTypeToString local_type));
                                 ("sdp", JString local_sdp)])])]).
Proof.
  intros eng hdl msg payload offer ty sdp a Hop Hpay Hdesc Htype Hsdp
         offer_collision answerer observer.
  split; [|split].
  - unfold webrtc_observer.on_message. rewrite Hop, Hpay. cbn [Z.eqb negb parse as_object].
    destruct (contains_found _ _ _ Hdesc) as [Hc Hm].
    destruct (contains_found _ _ _ Htype) as [_ Hmt].
    destruct (contains_found _ _ _ Hsdp) as [_ Hms].
    subst offer_collision observer answerer.
    run_handler. rewrite Hc. cbn. rewrite Hm. cbn. rewrite Hmt. cbn.
    rewrite offer_string_is_offer. unfold webrtc_observer.polite. cbn.
    destruct (is_offer ty &&
              (webrtc_observer.making_offer a ||
               negb (SignalingState_eqb
                       (signaling_state eng (webrtc_observer.peer a)) kStable)));
      cbn; [reflexivity|].
    rewrite type_of_string_of_type. cbn. rewrite Hms. cbn. reflexivity.
  - intros err. unfold OnSetRemoteDescriptionComplete. subst observer.
    run_handler. destruct (is_offer ty); reflexivity.
  - intros local_type local_sdp. reflexivity.
Qed.

(** A glare at the socket: an offer arrives while the adapter is making its
    own. *)
Definition glare_offer : message_ptr :=
  {| get_opcode := 1;
     get_payload :=
       Some (JObject [("description",
                       JObject [("type", JString "offer");
                                ("sdp", JString "v=0")])]) |}.

Lemma on_message_description_witness :
  webrtc_observer.on_message healthy_engine 2 glare_offer
    (webrtc_observer.set_making_offer true (fresh_adapter 100 2 ignore_track)) =
  Outcome (inl tt)
    (webrtc_observer.set_ignore_offer true
       (webrtc_observer.set_making_offer true (fresh_adapter 100 2 ignore_track)))
    [].
Proof.
  exact (proj1 (on_message_description healthy_engine 2 glare_offer
                  [("description",
                    JObject [("type", JString "offer"); ("sdp", JString "v=0")])]
                  [("type", JString "offer"); ("sdp", JString "v=0")]
                  kOffer "v=0"
                  (webrtc_observer.set_making_offer true
                     (fresh_adapter 100 2 ignore_track))
                  eq_refl eq_refl eq_refl eq_refl eq_refl)).
Defined.

(** C6. A text frame whose payload is not well-formed JSON, or is JSON but
    not an object, makes the handler leave with the parser's exception:
    nothing is logged, no call is made, and the adapter is as it was. *)
Theorem on_message_malformed_json_throws :
  forall (eng : engine) (hdl : nat) (body : option json) (a : webrtc_observer.t),
    match body with
    | Some (JObject _) => True
    | _ =>
        webrtc_observer.on_message eng hdl
          {| get_opcode := 1; get_payload := body |} a =
        Outcome (inr json_error) a []
    end.
Proof.
  intros eng hdl [[| | | | | | |]|] a; try exact I; reflexivity.
Qed.

(** ** Sink endpoint: accepting a socket *)

(** C10. An open event for a handle that is already in [connections] only
    logs: no adapter is built and the endpoint (the whole registry and the
    stored transceiver) is unchanged. *)
Theorem sink_on_open_registered_is_noop :
  forall (eng : engine) (hdl : nat) (s : sink_server.t) (a : webrtc_observer.t),
    sink_server.connections s !! hdl = Some a ->
    sink_server.on_open eng hdl s =
    Outcome (inl tt) s [Log info [TStr "New sink has appeared"]].
Proof.
  intros eng hdl s a H. unfold sink_server.on_open. run_handler.
  rewrite H. reflexivity.
Qed.

Definition one_sink : sink_server.t :=
  {| sink_server.connections := {[ 2%nat := fresh_adapter 101 2 ignore_track ]};
     sink_server.transceiver := Some 5%nat |}.

Lemma sink_on_open_registered_is_noop_witness :
  sink_server.on_open healthy_engine 2 one_sink =
  Outcome (inl tt) one_sink [Log info [TStr "New sink has appeared"]].
Proof.
  apply (sink_on_open_registered_is_noop healthy_engine 2 one_sink
           (fresh_adapter 101 2 ignore_track)).
  vm_compute. reflexivity.
Defined.

Definition accepted (hdl : nat) : list effect :=
  [Log info [TStr "New sink has appeared"];
   Log info [TStr ("created PeerConnection" +:+ newline)];
   SetMessageHandler hdl].

Lemma sink_on_open_unregistered :
  forall (eng : engine) (hdl pc : nat) (s : sink_server.t),
    sink_server.connections s !! hdl = None ->
    CreatePeerConnectionOrError eng webrtc_observer.config = Value pc ->
    sink_server.on_open eng hdl s =
    match sink_server.transceiver s with
    | Some tr =>
        let published :=
          webrtc_observer.switch_track eng tr (fresh_adapter pc hdl ignore_track) in
        Outcome (inl tt)
          (sink_server.set_connections (insert hdl (state published)) s)
          (accepted hdl ++ trace published)
    | None =>
        Outcome (inl tt)
          (sink_server.set_connections
             (insert hdl (fresh_adapter pc hdl ignore_track)) s)
          (accepted hdl)
    end.
Proof.
  intros eng hdl pc s Hfree Hpc.
  unfold sink_server.on_open, webrtc_observer.make, webrtc_observer.create_peer.
  rewrite Hpc. run_handler. rewrite Hfree.
  destruct (sink_server.transceiver s) as [tr|]; cbn; [|reflexivity].
  fold (fresh_adapter pc hdl ignore_track).
  rewrite (switch_track_outcome eng tr (fresh_adapter pc hdl ignore_track)).
  cbn. rewrite !app_nil_r. reflexivity.
Qed.

Lemma switch_track_fresh_trace :
  forall (eng : engine) (tr pc hdl : nat) (callback : track_callback),
    exists outcome_logged,
      trace (webrtc_observer.switch_track eng tr (fresh_adapter pc hdl callback)) =
      [AddTrack pc (receiver_track eng tr) ["mirrored_stream"]; outcome_logged].
Proof.
  intros eng tr pc hdl callback.
  unfold webrtc_observer.switch_track. run_handler.
  destruct (AddTrack_result eng pc (receiver_track eng tr) ["mirrored_stream"]);
    eexists; reflexivity.
Qed.

(** *** The accept handler, call by call

    The outcome of a handler tells which calls it made and what its object
    is afterwards, not what the object was at the moment of each call. To see
    that, [sink_server::on_open] is read a second time, statement by
    statement as before, in a monad that also records, for every call, the
    state of the sink endpoint in which the call is made. *)

Definition watched (S A : Type) : Type := S -> outcome S A * list S.

Definition ret_w {S A} (a : A) : watched S A :=
  fun s => (Outcome (inl a) s [], []).

Definition bind_w {S A B} (m : watched S A) (k : A -> watched S B)
    : watched S B :=
  fun s =>
    match m s with
    | (Outcome (inl a) s1 t1, seen1) =>
        match k a s1 with
        | (Outcome r s2 t2, seen2) => (Outcome r s2 (t1 ++ t2), seen1 ++ seen2)
        end
    | (Outcome (inr e) s1 t1, seen1) => (Outcome (inr e) s1 t1, seen1)
    end.

Notation "x <~ m ;; k" := (bind_w m (fun x => k))
  (at level 100, m at next level, right associativity).
Notation "m ;;~ k" := (bind_w m (fun _ => k))
  (at level 100, right associativity).

Definition get_w {S} : watched S S := fun s => (Outcome (inl s) s [], []).

Definition modify_w {S} (f : S -> S) : watched S unit :=
  fun s => (Outcome (inl tt) (f s) [], []).

Definition log_w {S} (severity : level) (args : list token) : watched S unit :=
  fun s => (Outcome (inl tt) s [Log severity args], [s]).

(** A member function of another object runs while this object is in state
    [s]: each of its calls is made in that state. *)
Definition on_object_w {S S' A} (s' : S') (m : M S' A) : watched S (A * S') :=
  fun s =>
    match m s' with
    | Outcome (inl a) s1' t => (Outcome (inl (a, s1')) s t, map (fun _ => s) t)
    | Outcome (inr e) _ t => (Outcome (inr e) s t, map (fun _ => s) t)
    end.

Definition sink_server_on_open_watched (eng : engine) (hdl : connection_hdl)
    : watched sink_server.t unit :=
  log_w info [TStr "New sink has appeared"] ;;~
  let new_connection := hdl in
  this <~ get_w ;;
  match sink_server.connections this !! new_connection with
  | None =>
      made <~ on_object_w tt
                (webrtc_observer.make eng new_connection ignore_track) ;;
      let peer := fst made in
      peer <~ match sink_server.transceiver this with
              | Some tr =>
                  switched <~ on_object_w peer
                                (webrtc_observer.switch_track eng tr) ;;
                  ret_w (snd switched)
              | None => ret_w peer
              end ;;
      modify_w (sink_server.set_connections (insert new_connection peer))
  | Some _ => ret_w tt
  end.

Ltac run_watched :=
  cbv [bind_w ret_w get_w modify_w log_w on_object_w]; cbn.

(** Forgetting the recorded states gives back the handler. *)
Lemma sink_server_on_open_watched_outcome :
  forall (eng : engine) (hdl : nat) (s : sink_server.t),
    fst (sink_server_on_open_watched eng hdl s) = sink_server.on_open eng hdl s.
Proof.
  intros eng hdl s.
  unfold sink_server_on_open_watched, sink_server.on_open,
    webrtc_observer.make, webrtc_observer.create_peer.
  destruct (sink_server.connections s !! hdl) as [a|] eqn:Hreg.
  - run_watched. run_handler. now rewrite Hreg.
  - destruct (CreatePeerConnectionOrError eng webrtc_observer.config) as [pc|e].
    + run_watched. run_handler. rewrite Hreg.
      destruct (sink_server.transceiver s) as [tr|]; cbn; [|reflexivity].
      fold (fresh_adapter pc hdl ignore_track).
      rewrite (switch_track_outcome eng tr (fresh_adapter pc hdl ignore_track)).
      reflexivity.
    + run_watched. run_handler. now rewrite Hreg.
Qed.

Lemma sink_server_on_open_watched_unregistered :
  forall (eng : engine) (hdl pc : nat) (s : sink_server.t),
    sink_server.connections s !! hdl = None ->
    CreatePeerConnectionOrError eng webrtc_observer.config = Value pc ->
    snd (sink_server_on_open_watched eng hdl s) =
    map (fun _ => s) (trace (sink_server.on_open eng hdl s)).
Proof.
  intros eng hdl pc s Hfree Hpc.
  rewrite (sink_on_open_unregistered eng hdl pc s Hfree Hpc).
  unfold sink_server_on_open_watched, webrtc_observer.make,
    webrtc_observer.create_peer.
  rewrite Hpc. run_watched. run_handler. rewrite Hfree.
  destruct (sink_server.transceiver s) as [tr|]; cbn; [|reflexivity].
  fold (fresh_adapter pc hdl ignore_track).
  rewrite (switch_track_outcome eng tr (fresh_adapter pc hdl ignore_track)).
  cbn. now rewrite !app_nil_r.
Qed.

(** C9. Accepting a sink socket that is not yet registered, the peer
    connection being created: with a transceiver stored, [switch_track] is
    run on the new adapter inside the accept handler, which asks the engine to
    add the transceiver's track to the new peer, and only the adapter that
    comes out of it is entered in [connections]; with no transceiver stored,
    the new adapter is registered and no track is added. Read call by call,
    every call of the handler, the add-track request included, is made while
    the sink endpoint is still in the state the handler found it in, in which
    the socket is not registered; the socket is registered when the handler
    returns. *)
Theorem sink_on_open_publishes_active_track :
  forall (eng : engine) (hdl pc : nat) (s : sink_server.t),
    sink_server.connections s !! hdl = None ->
    CreatePeerConnectionOrError eng webrtc_observer.config = Value pc ->
    let built :=
      [Log info [TStr "New sink has appeared"];
       Log info [TStr ("created PeerConnection" +:+ newline)];
       SetMessageHandler hdl] in
    match sink_server.transceiver s with
    | Some tr =>
        let published :=
          webrtc_observer.switch_track eng tr (fresh_adapter pc hdl ignore_track) in
        sink_server.on_open eng hdl s =
          Outcome (inl tt)
            (sink_server.set_connections (insert hdl (state published)) s)
            (built ++ trace published)
        /\ (exists outcome_logged,
              trace published =
              [AddTrack pc (receiver_track eng tr) ["mirrored_stream"];
               outcome_logged])
        /\ sink_server_on_open_watched eng hdl s =
           (sink_server.on_open eng hdl s,
            map (fun _ => s) (built ++ trace published))
        /\ sink_server.connections (state (sink_server.on_open eng hdl s)) !! hdl =
           Some (state published)
    | None =>
        sink_server.on_open eng hdl s =
          Outcome (inl tt)
            (sink_server.set_connections
               (insert hdl (fresh_adapter pc hdl ignore_track)) s)
            built
    end.
Proof.
  intros eng hdl pc s Hfree Hpc built.
  pose proof (sink_server_on_open_watched_outcome eng hdl s) as Hfst.
  pose proof (sink_server_on_open_watched_unregistered eng hdl pc s Hfree Hpc)
    as Hsnd.
  rewrite (sink_on_open_unregistered eng hdl pc s Hfree Hpc) in *.
  destruct (sink_server.transceiver s) as [tr|]; [|reflexivity].
  split; [reflexivity|]. split; [apply switch_track_fresh_trace|]. split.
  - destruct (sink_server_on_open_watched eng hdl s) as [o seen].
    cbn in Hfst, Hsnd. now subst.
  - cbn. apply lookup_insert_eq.
Qed.

Definition streaming_sink : sink_server.t :=
  {| sink_server.connections := ∅; sink_server.transceiver := Some 5%nat |}.

Lemma sink_on_open_publishes_active_track_witness :
  sink_server.on_open healthy_engine 2 streaming_sink =
  Outcome (inl tt)
    (sink_server.set_connections
       (insert 2%nat
          (state (webrtc_observer.switch_track healthy_engine 5
                    (fresh_adapter 100 2 ignore_track))))
       streaming_sink)
    ([Log info [TStr "New sink has appeared"];
      Log info [TStr ("created PeerConnection" +:+ newline)];
      SetMessageHandler 2] ++
     trace (webrtc_observer.switch_track healthy_engine 5
              (fresh_adapter 100 2 ignore_track)))
  /\ snd (sink_server_on_open_watched healthy_engine 2 streaming_sink) =
     [streaming_sink; streaming_sink; streaming_sink; streaming_sink;
      streaming_sink]
  /\ sink_server.connections
       (state (sink_server.on_open healthy_engine 2 streaming_sink)) !! 2%nat =
     Some (fresh_adapter 100 2 ignore_track).
Proof.
  destruct (sink_on_open_publishes_active_track healthy_engine 2 100
              streaming_sink eq_refl eq_refl) as (Hrun & _ & Hwatched & Hreg).
  split; [exact Hrun|]. split.
  - rewrite Hwatched. reflexivity.
  - rewrite Hreg. reflexivity.
Defined.

(** ** Source endpoint: the source leaves *)

Definition init_relay : relay :=
  {| sink := sink_server.init; source := source_server.init |}.

(** A source has connected on socket 1 and its peer has delivered
    transceiver 5. *)
Definition relay_streaming : relay :=
  let connected :=
    state (in_source (source_server.on_open healthy_engine 1) init_relay) in
  state (OnTrack healthy_engine
           (fresh_adapter 100 1 forward_to_source_server) 5 connected).

(** What C7 asks of a source close. *)
Definition active_track_cleared_by_source_close (r : relay) (hdl : nat) : Prop :=
  sink_server.transceiver
    (sink (state (in_source (source_server.on_close hdl) r))) = None.

Definition is_AddTrack (e : effect) : bool :=
  match e with AddTrack _ _ _ => true | _ => false end.

(** C7, as stated, fails: after the streaming source on socket 1 has closed,
    the sink endpoint still holds transceiver 5, and the next sink accepted
    is published its track. *)
Lemma source_close_keeps_active_track :
  let after := state (in_source (source_server.on_close 1) relay_streaming) in
  source_server.connection (source relay_streaming) = Some 1%nat
  /\ ~ active_track_cleared_by_source_close relay_streaming 1
  /\ sink_server.transceiver (sink after) = Some 5%nat
  /\ trace (in_sink (sink_server.on_open healthy_engine 2) after) =
     accepted 2 ++ [AddTrack 100 1005 ["mirrored_stream"];
                    Log info [TStr "added track to peer"]].
Proof.
  cbn zeta. split; [reflexivity|]. split; [|split].
  - unfold active_track_cleared_by_source_close. vm_compute. discriminate.
  - vm_compute. reflexivity.
  - vm_compute. reflexivity.
Qed.

Lemma source_on_close_current :
  forall (s : source_server.t) (hdl : nat),
    source_server.connection s = Some hdl ->
    source_server.on_close hdl s =
    Outcome (inl tt) source_server.init
      (Log warning [TStr "source disconnected"] ::
       match source_server.peer s with
       | Some a => [PeerClose (webrtc_observer.peer a);
                    Log info [TThis; TStr "closing peer"]]
       | None => []
       end).
Proof.
  intros s hdl H. unfold source_server.on_close. run_handler.
  rewrite H, bool_decide_eq_true_2 by reflexivity. cbn.
  destruct (source_server.peer s); reflexivity.
Qed.

(** C7, amended. When the socket of the current source closes, the source
    endpoint logs the disconnect, empties its slot (connection and adapter)
    and, when it held an adapter, closes that adapter's peer connection; it
    makes no other call and does not touch the sink endpoint: the stored transceiver
    and the registry are as before, so a sink accepted afterwards, while a
    transceiver is stored, is still published that transceiver's track. *)
Theorem source_on_close_clears_slot_keeps_track :
  forall (r : relay) (hdl : nat),
    source_server.connection (source r) = Some hdl ->
    let o := in_source (source_server.on_close hdl) r in
    result o = inl tt
    /\ source (state o) = source_server.init
    /\ trace o =
       Log warning [TStr "source disconnected"] ::
       match source_server.peer (source r) with
       | Some a => [PeerClose (webrtc_observer.peer a);
                    Log info [TThis; TStr "closing peer"]]
       | None => []
       end
    /\ sink (state o) = sink r
    /\ forall (eng : engine) (h pc tr : nat),
         sink_server.transceiver (sink r) = Some tr ->
         sink_server.connections (sink r) !! h = None ->
         CreatePeerConnectionOrError eng webrtc_observer.config = Value pc ->
         exists outcome_logged,
           trace (in_sink (sink_server.on_open eng h) (state o)) =
           accepted h ++
           [AddTrack pc (receiver_track eng tr) ["mirrored_stream"];
            outcome_logged].
Proof.
  intros r hdl H o. subst o. unfold in_source.
  rewrite (source_on_close_current _ _ H).
  split; [reflexivity|]. split; [reflexivity|]. split; [reflexivity|].
  split; [reflexivity|].
  intros eng h pc tr Htr Hfree Hpc. unfold in_sink. cbn [state sink].
  rewrite (sink_on_open_unregistered eng h pc (sink r) Hfree Hpc), Htr.
  cbn [trace].
  destruct (switch_track_fresh_trace eng tr pc h ignore_track) as [e He].
  exists e. now rewrite He.
Qed.

Lemma source_on_close_clears_slot_keeps_track_witness :
  source (state (in_source (source_server.on_close 1) relay_streaming)) =
    source_server.init
  /\ trace (in_source (source_server.on_close 1) relay_streaming) =
     [Log warning [TStr "source disconnected"];
      PeerClose 100; Log info [TThis; TStr "closing peer"]]
  /\ sink (state (in_source (source_server.on_close 1) relay_streaming)) =
     sink relay_streaming
  /\ exists outcome_logged,
       trace (in_sink (sink_server.on_open healthy_engine 2)
                (state (in_source (source_server.on_close 1) relay_streaming))) =
       accepted 2 ++ [AddTrack 100 1005 ["mirrored_stream"]; outcome_logged].
Proof.
  pose proof (source_on_close_clears_slot_keeps_track relay_streaming 1 eq_refl)
    as (_ & Hsource & Htrace & Hsink & Hlate).
  split; [exact Hsource|]. split; [exact Htrace|]. split; [exact Hsink|].
  exact (Hlate healthy_engine 2%nat 100%nat 5%nat eq_refl eq_refl eq_refl).
Defined.

(** ** Supervisor: shutdown *)

(** What the destructor of an adapter does. *)
Definition closing (a : webrtc_observer.t) : list effect :=
  [PeerClose (webrtc_observer.peer a); Log info [TThis; TStr "closing peer"]].

Lemma release_closing :
  forall (S : Type) (p : option webrtc_observer.t) (s : S),
    release p s =
    Outcome (inl tt) s (match p with Some a => closing a | None => [] end).
Proof. intros S [a|] s; reflexivity. Qed.

Lemma for_each_release :
  forall (S : Type) (l : list (nat * webrtc_observer.t)) (s : S),
    for_each l (fun entry => release (Some (snd entry))) s =
    Outcome (inl tt) s (flat_map (fun entry => closing (snd entry)) l).
Proof.
  intros S l s. induction l as [|entry l IH]; [reflexivity|].
  cbn [for_each flat_map]. unfold bind at 1.
  rewrite release_closing. cbn [result state trace]. rewrite IH. reflexivity.
Qed.

Lemma no_SocketClose_closing :
  forall l : list (nat * webrtc_observer.t),
    existsb is_SocketClose (flat_map (fun entry => closing (snd entry)) l) = false.
Proof. induction l as [|entry l IH]; [reflexivity | exact IH]. Qed.

(** The trace of [main_shutdown]. *)
Definition shutdown_trace (r : relay) : list effect :=
  [StopListening sink_endpoint; Stop sink_endpoint; Join sink_endpoint;
   StopListening source_endpoint; Stop source_endpoint; Join source_endpoint]
  ++ match source_server.peer (source r) with
     | Some a => closing a
     | None => []
     end
  ++ match sink_server.transceiver (sink r) with
     | Some tr => [ReleaseTransceiver tr]
     | None => []
     end
  ++ flat_map (fun entry => closing (snd entry))
       (map_to_list (sink_server.connections (sink r)))
  ++ [ReleaseFactory; StopSignalThread].

(** What C8 asks of a shutdown trace, as two checks: every socket that is
    open is closed with "going away", and once a listener thread is joined
    only joins follow. *)
Definition closed_going_away (tr : list effect) (c : nat) : bool :=
  existsb (fun e => match e with
                    | SocketClose c' going_away _ => Nat.eqb c c'
                    | _ => false
                    end) tr.

Definition open_sockets (r : relay) : list nat :=
  map fst (map_to_list (sink_server.connections (sink r)))
  ++ match source_server.connection (source r) with
     | Some c => [c]
     | None => []
     end.

Definition is_Join (e : effect) : bool :=
  match e with Join _ => true | _ => false end.

Fixpoint joins_last (tr : list effect) : bool :=
  match tr with
  | [] => true
  | e :: tr' => if is_Join e then forallb is_Join tr' else joins_last tr'
  end.

Definition shutdown_as_specified (r : relay) (tr : list effect) : bool :=
  forallb (closed_going_away tr) (open_sockets r) && joins_last tr.

(** A source streams on socket 1 and one sink watches on socket 2. *)
Definition relay_with_viewer : relay :=
  state (in_sink (sink_server.on_open (healthy_engine_for 101) 2)
           relay_streaming).

(** C8, as stated, fails: with a source and a sink connected, shutdown closes
    no socket at all, and both listener threads are joined before any peer
    connection is closed and before the factory goes. *)
Lemma main_shutdown_not_as_specified :
  trace (main_shutdown relay_with_viewer) =
    [StopListening sink_endpoint; Stop sink_endpoint; Join sink_endpoint;
     StopListening source_endpoint; Stop source_endpoint; Join source_endpoint;
     PeerClose 100; Log info [TThis; TStr "closing peer"];
     ReleaseTransceiver 5;
     PeerClose 101; Log info [TThis; TStr "closing peer"];
     ReleaseFactory; StopSignalThread]
  /\ open_sockets relay_with_viewer = [2%nat; 1%nat]
  /\ closed_going_away (trace (main_shutdown relay_with_viewer)) 2 = false
  /\ closed_going_away (trace (main_shutdown relay_with_viewer)) 1 = false
  /\ joins_last (trace (main_shutdown relay_with_viewer)) = false
  /\ shutdown_as_specified relay_with_viewer
       (trace (main_shutdown relay_with_viewer)) = false.
Proof. repeat split; vm_compute; reflexivity. Qed.

Lemma source_server_destroy_outcome :
  forall s : source_server.t,
    source_server.destroy s =
    Outcome (inl tt) s
      (match source_server.peer s with Some a => closing a | None => [] end).
Proof.
  intros s. unfold source_server.destroy, bind, get.
  rewrite release_closing. reflexivity.
Qed.

Lemma sink_server_destroy_outcome :
  forall s : sink_server.t,
    sink_server.destroy s =
    Outcome (inl tt) s
      (match sink_server.transceiver s with
       | Some tr => [ReleaseTransceiver tr]
       | None => []
       end
       ++ flat_map (fun entry => closing (snd entry))
            (map_to_list (sink_server.connections s))).
Proof.
  intros s. unfold sink_server.destroy, bind, get.
  destruct (sink_server.transceiver s) as [tr|]; cbn;
    rewrite for_each_release; reflexivity.
Qed.

Lemma main_shutdown_outcome :
  forall r : relay,
    main_shutdown r = Outcome (inl tt) r (shutdown_trace r).
Proof.
  intros [snk src].
  cbv [main_shutdown socket_server.shut_down webrtc_factory_destroy
       bind emit in_sink in_source sink source].
  rewrite source_server_destroy_outcome, sink_server_destroy_outcome.
  unfold shutdown_trace. cbn [sink source app].
  rewrite <- !app_assoc. reflexivity.
Qed.

(** C8, amended. At shutdown, in order: the sink listener stops accepting,
    its I/O loop is stopped and its thread joined; the same for the source
    listener; the source adapter's peer connection is closed; the sink
    endpoint drops its transceiver and closes the peer connection of every
    registered sink adapter; the factory is released and the signal thread
    stopped. No socket is closed by the shutdown. *)
Theorem main_shutdown_order :
  forall r : relay,
    result (main_shutdown r) = inl tt
    /\ trace (main_shutdown r) = shutdown_trace r
    /\ existsb is_SocketClose (trace (main_shutdown r)) = false.
Proof.
  intros r. rewrite main_shutdown_outcome. cbn [result trace].
  split; [reflexivity|]. split; [reflexivity|].
  unfold shutdown_trace. rewrite !existsb_app, no_SocketClose_closing.
  destruct (source_server.peer (source r)), (sink_server.transceiver (sink r));
    reflexivity.
Qed.

(** * Further properties of the peer adapter *)

(** The calls [on_message] can make: a log line, or one of the two requests
    to the engine. *)
Definition is_signaling_call (e : effect) : bool :=
  match e with
  | Log _ _ | SetRemoteDescription _ _ _ _ | AddIceCandidate _ _ => true
  | _ => false
  end.

(** Two adapters that differ at most in [ignore_offer]. *)
Definition same_but_ignore_offer (a b : webrtc_observer.t) : Prop :=
  webrtc_observer.peer b = webrtc_observer.peer a
  /\ webrtc_observer.signal_socket b = webrtc_observer.signal_socket a
  /\ webrtc_observer.on_track b = webrtc_observer.on_track a
  /\ webrtc_observer.current_sender b = webrtc_observer.current_sender a
  /\ webrtc_observer.making_offer b = webrtc_observer.making_offer a.

Lemma on_message_shape :
  forall (eng : engine) (hdl : nat) (msg : message_ptr) (a : webrtc_observer.t),
    let o := webrtc_observer.on_message eng hdl msg a in
    same_but_ignore_offer a (state o)
    /\ (length (trace o) <= 1)%nat
    /\ forallb is_signaling_call (trace o) = true.
Proof.
  intros eng hdl [op body] a. unfold webrtc_observer.on_message, same_but_ignore_offer.
  cbn [get_opcode get_payload].
  destruct (op =? 1); run_handler; [|auto 10].
  destruct body as [[| | | | | | |members]|]; run_handler; auto 10.
  destruct (contains members "description"); run_handler.
  - destruct (member members "description") as [| | | | | | |offer];
      run_handler; auto 10.
    destruct (member offer "type") as [| | | | |type| |]; run_handler; auto 10.
    destruct (String.eqb type "offer" &&
              (webrtc_observer.making_offer a ||
               negb (SignalingState_eqb
                       (signaling_state eng (webrtc_observer.peer a)) kStable)));
      run_handler; auto 10.
    destruct (SdpTypeFromString type); run_handler; auto 10.
    destruct (member offer "sdp"); run_handler; auto 10.
  - destruct (contains members "candidate"); run_handler; auto 10.
    destruct (member members "candidate") as [| | | | | | |blob];
      run_handler; auto 10.
    destruct (member blob "sdpMid"); run_handler; auto 10.
    destruct (member blob "sdpMLineIndex"); run_handler; auto 10.
    destruct (member blob "candidate"); run_handler; auto 10.
    destruct (CreateIceCandidate eng s (to_int z) s0); run_handler; auto 10.
Qed.

(** Whatever the frame, and also when the handler throws, [on_message]
    leaves the adapter's peer, socket, callback, sender and [making_offer]
    alone: [ignore_offer] is the only field it writes. *)
Theorem on_message_writes_only_ignore_offer :
  forall (eng : engine) (hdl : nat) (msg : message_ptr) (a : webrtc_observer.t),
    same_but_ignore_offer a (state (webrtc_observer.on_message eng hdl msg a)).
Proof. intros eng hdl msg a. apply (on_message_shape eng hdl msg a). Qed.

(** Whatever the frame, [on_message] makes at most one call, and that call is
    a log line, a set-remote-description or an add-ice-candidate request: it
    never sends on the socket, never closes the socket or the peer, and never
    adds or removes a track. *)
Theorem on_message_makes_one_signaling_call_at_most :
  forall (eng : engine) (hdl : nat) (msg : message_ptr) (a : webrtc_observer.t),
    (length (trace (webrtc_observer.on_message eng hdl msg a)) <= 1)%nat
    /\ forallb is_signaling_call
         (trace (webrtc_observer.on_message eng hdl msg a)) = true.
Proof. intros eng hdl msg a. apply (on_message_shape eng hdl msg a). Qed.

(** A frame that is not a text frame is dropped with a warning that names its
    opcode; its payload is not parsed, so even a payload that is not JSON
    raises nothing. *)
Theorem on_message_non_text_frame :
  forall (eng : engine) (hdl : nat) (op : Z) (body : option json)
         (a : webrtc_observer.t),
    op <> 1 ->
    webrtc_observer.on_message eng hdl {| get_opcode := op; get_payload := body |} a =
    Outcome (inl tt) a
      [Log warning [TThis; TStr "I don't know how to use this frame"; TInt op]].
Proof.
  intros eng hdl op body a Hop. unfold webrtc_observer.on_message.
  cbn [get_opcode]. apply Z.eqb_neq in Hop. rewrite Hop. reflexivity.
Qed.

Lemma on_message_non_text_frame_witness :
  webrtc_observer.on_message healthy_engine 2
    {| get_opcode := 2; get_payload := None |} (fresh_adapter 100 2 ignore_track) =
  Outcome (inl tt) (fresh_adapter 100 2 ignore_track)
    [Log warning [TThis; TStr "I don't know how to use this frame"; TInt 2]].
Proof.
  apply (on_message_non_text_frame healthy_engine 2 2 None
           (fresh_adapter 100 2 ignore_track)).
  lia.
Defined.

Lemma contains_missing :
  forall (o : list (string * json)) (k : string),
    find_member o k = None -> contains o k = false.
Proof. intros o k H. unfold contains. now rewrite H. Qed.

(** A JSON object with neither a "description" nor a "candidate" key is
    accepted and ignored: no log line, no call, no change. *)
Theorem on_message_unknown_keys_ignored :
  forall (eng : engine) (hdl : nat) (members : list (string * json))
         (a : webrtc_observer.t),
    find_member members "description" = None ->
    find_member members "candidate" = None ->
    webrtc_observer.on_message eng hdl
      {| get_opcode := 1; get_payload := Some (JObject members) |} a =
    Outcome (inl tt) a [].
Proof.
  intros eng hdl members a Hd Hc. unfold webrtc_observer.on_message.
  run_handler. rewrite (contains_missing _ _ Hd), (contains_missing _ _ Hc).
  reflexivity.
Qed.

Lemma on_message_unknown_keys_ignored_witness :
  webrtc_observer.on_message healthy_engine 2
    {| get_opcode := 1;
       get_payload := Some (JObject [("offer", JObject [("sdp", JString "v=0")])]) |}
    (fresh_adapter 100 2 ignore_track) =
  Outcome (inl tt) (fresh_adapter 100 2 ignore_track) [].
Proof.
  apply (on_message_unknown_keys_ignored healthy_engine 2
           [("offer", JObject [("sdp", JString "v=0")])]
           (fresh_adapter 100 2 ignore_track)); reflexivity.
Defined.

(** When the object has a "description" key, that key alone decides what
    happens: a "candidate" (or anything else) sent in the same object is never
    looked at. *)
Theorem on_message_description_takes_precedence :
  forall (eng : engine) (hdl : nat) (p p' : list (string * json)) (d : json)
         (a : webrtc_observer.t),
    find_member p "description" = Some d ->
    find_member p' "description" = Some d ->
    webrtc_observer.on_message eng hdl
      {| get_opcode := 1; get_payload := Some (JObject p) |} a =
    webrtc_observer.on_message eng hdl
      {| get_opcode := 1; get_payload := Some (JObject p') |} a.
Proof.
  intros eng hdl p p' d a Hp Hp'. unfold webrtc_observer.on_message.
  destruct (contains_found _ _ _ Hp) as [Hc Hm].
  destruct (contains_found _ _ _ Hp') as [Hc' Hm'].
  run_handler. rewrite Hc, Hc', Hm, Hm'. reflexivity.
Qed.

Lemma on_message_description_takes_precedence_witness :
  webrtc_observer.on_message healthy_engine 2
    {| get_opcode := 1;
       get_payload :=
         Some (JObject [("candidate", JNull);
                        ("description",
                         JObject [("type", JString "answer");
                                  ("sdp", JString "v=0")])]) |}
    (fresh_adapter 100 2 ignore_track) =
  webrtc_observer.on_message healthy_engine 2
    {| get_opcode := 1;
       get_payload :=
         Some (JObject [("description",
                         JObject [("type", JString "answer");
                                  ("sdp", JString "v=0")])]) |}
    (fresh_adapter 100 2 ignore_track).
Proof.
  apply (on_message_description_takes_precedence healthy_engine 2 _ _
           (JObject [("type", JString "answer"); ("sdp", JString "v=0")]));
    reflexivity.
Defined.

(** What [c_str()] shows of a string: the characters before the first
    NUL. *)
Fixpoint c_str (s : string) : string :=
  match s with
  | EmptyString => EmptyString
  | String c s' =>
      if Ascii.eqb c (Ascii.ascii_of_nat 0) then EmptyString
      else String c (c_str s')
  end.

(** A description with an SDP text and a type, free of NUL characters, that
    is not one of "offer", "answer", "pranswer", "rollback" makes the handler
    throw when it unwraps the parsed type; by then [ignore_offer] has already
    been reset to false. Nothing is logged and the engine is not called. *)
Theorem on_message_unknown_description_type :
  forall (eng : engine) (hdl : nat) (payload offer : list (string * json))
         (ty sdp : string) (a : webrtc_observer.t),
    find_member payload "description" = Some (JObject offer) ->
    find_member offer "type" = Some (JString ty) ->
    find_member offer "sdp" = Some (JString sdp) ->
    c_str ty = ty ->
    SdpTypeFromString ty = None ->
    webrtc_observer.on_message eng hdl
      {| get_opcode := 1; get_payload := Some (JObject payload) |} a =
    Outcome (inr bad_optional_access) (webrtc_observer.set_ignore_offer false a) [].
Proof.
  intros eng hdl payload offer ty sdp a Hd Ht Hs Hplain Hty.
  destruct (contains_found _ _ _ Hd) as [Hc Hm].
  destruct (contains_found _ _ _ Ht) as [_ Hmt].
  assert (Hoffer : String.eqb ty "offer" = false).
  { unfold SdpTypeFromString in Hty. destruct (String.eqb ty "offer"); [discriminate|reflexivity]. }
  unfold webrtc_observer.on_message. run_handler.
  rewrite Hc. cbn. rewrite Hm. cbn. rewrite Hmt. cbn.
  rewrite Hoffer. cbn. rewrite Hty. reflexivity.
Qed.

Lemma on_message_unknown_description_type_witness :
  webrtc_observer.on_message healthy_engine 2
    {| get_opcode := 1;
       get_payload :=
         Some (JObject [("description",
                         JObject [("type", JString "Offer");
                                  ("sdp", JString "v=0")])]) |}
    (webrtc_observer.set_ignore_offer true (fresh_adapter 100 2 ignore_track)) =
  Outcome (inr bad_optional_access)
    (webrtc_observer.set_ignore_offer false
       (webrtc_observer.set_ignore_offer true (fresh_adapter 100 2 ignore_track)))
    [].
Proof.
  apply (on_message_unknown_description_type healthy_engine 2
           [("description",
             JObject [("type", JString "Offer"); ("sdp", JString "v=0")])]
           [("type", JString "Offer"); ("sdp", JString "v=0")] "Offer" "v=0");
    reflexivity.
Defined.

(** ** Candidates *)

(** The envelope of a remote candidate. *)
Definition candidate_frame (mid : string) (index : Z) (sdp : string) : json :=
  JObject [("candidate",
            JObject [("candidate", JString sdp);
                     ("sdpMid", JString mid);
                     ("sdpMLineIndex", JInt64 index)])].


Lemma on_message_candidate_frame :
  forall (eng : engine) (hdl : nat) (mid : string) (index : Z) (sdp : string)
         (a : webrtc_observer.t),
    webrtc_observer.on_message eng hdl
      {| get_opcode := 1; get_payload := Some (candidate_frame mid index sdp) |} a =
    Outcome (inl tt) a
      (match CreateIceCandidate eng mid (to_int index) sdp with
       | inl c => [AddIceCandidate (webrtc_observer.peer a) c]
       | inr description =>
           [Log error [TThis; TStr "failed to parse ICE candidate: ";
                       TStr description]]
       end).
Proof.
  intros eng hdl mid index sdp a.
  unfold webrtc_observer.on_message, candidate_frame. run_handler.
  destruct (CreateIceCandidate eng mid (to_int index) sdp); reflexivity.
Qed.



(** A candidate the engine cannot parse is reported in the log and dropped:
    no exception, no add-ice-candidate request, no change to the adapter. *)
Theorem on_message_unparsable_candidate :
  forall (eng : engine) (hdl : nat) (mid : string) (index : Z) (sdp : string)
         (description : string) (a : webrtc_observer.t),
    CreateIceCandidate eng mid (to_int index) sdp = inr description ->
    webrtc_observer.on_message eng hdl
      {| get_opcode := 1; get_payload := Some (candidate_frame mid index sdp) |} a =
    Outcome (inl tt) a
      [Log error [TThis; TStr "failed to parse ICE candidate: "; TStr description]].
Proof.
  intros eng hdl mid index sdp description a H.
  rewrite on_message_candidate_frame, H. reflexivity.
Qed.

(** An engine that rejects every candidate text. *)
Definition strict_engine : engine :=
  {| CreatePeerConnectionOrError := fun _ => Value 100%nat;
     signaling_state := fun _ => kStable;
     ShouldFireNegotiationNeededEvent := fun _ _ => true;
     RemoveTrackOrError := fun _ _ => RTCError_OK;
     AddTrack_result := fun _ _ _ => Value 7%nat;
     receiver_track := fun tr => (tr + 1000)%nat;
     enabled := fun _ => true;
     CreateIceCandidate := fun _ _ _ => inr "Expect line: candidate:<candidate-str>" |}.

Lemma on_message_unparsable_candidate_witness :
  webrtc_observer.on_message strict_engine 2
    {| get_opcode := 1; get_payload := Some (candidate_frame "0" 0 "garbage") |}
    (fresh_adapter 100 2 ignore_track) =
  Outcome (inl tt) (fresh_adapter 100 2 ignore_track)
    [Log error [TThis; TStr "failed to parse ICE candidate: ";
                TStr "Expect line: candidate:<candidate-str>"]].
Proof.
  apply (on_message_unparsable_candidate strict_engine 2 "0" 0 "garbage").
  reflexivity.
Defined.

(** A candidate object in which "sdpMid" or "candidate" is not a string, or
    "sdpMLineIndex" is not a signed integer (missing, a string, a double, an
    unsigned number), makes the handler throw before the engine is asked
    anything; the adapter is unchanged. *)
Theorem on_message_ill_typed_candidate :
  forall (eng : engine) (hdl : nat) (members blob : list (string * json))
         (a : webrtc_observer.t),
    find_member members "description" = None ->
    find_member members "candidate" = Some (JObject blob) ->
    as_string (member blob "sdpMid") = inr json_error
    \/ as_int64 (member blob "sdpMLineIndex") = inr json_error
    \/ as_string (member blob "candidate") = inr json_error ->
    webrtc_observer.on_message eng hdl
      {| get_opcode := 1; get_payload := Some (JObject members) |} a =
    Outcome (inr json_error) a [].
Proof.
  intros eng hdl members blob a Hd Hc Hbad.
  destruct (contains_found _ _ _ Hc) as [Hcc Hm].
  unfold webrtc_observer.on_message. run_handler.
  rewrite (contains_missing _ _ Hd), Hcc. cbn. rewrite Hm. cbn.
  destruct (member blob "sdpMid") as [| | | | |mid| |]; try reflexivity.
  cbn. destruct Hbad as [H|Hbad]; [discriminate|].
  destruct (member blob "sdpMLineIndex") as [| |index| | | | |]; try reflexivity.
  cbn. destruct Hbad as [H|H]; [discriminate|].
  destruct (member blob "candidate") as [| | | | |sdp| |]; try reflexivity.
  discriminate.
Qed.

Lemma on_message_ill_typed_candidate_witness :
  webrtc_observer.on_message healthy_engine 2
    {| get_opcode := 1;
       get_payload :=
         Some (JObject [("candidate",
                         JObject [("candidate", JString "candidate:1");
                                  ("sdpMid", JString "0");
                                  ("sdpMLineIndex", JString "0")])]) |}
    (fresh_adapter 100 2 ignore_track) =
  Outcome (inr json_error) (fresh_adapter 100 2 ignore_track) [].
Proof.
  apply (on_message_ill_typed_candidate healthy_engine 2
           [("candidate",
             JObject [("candidate", JString "candidate:1");
                      ("sdpMid", JString "0");
                      ("sdpMLineIndex", JString "0")])]
           [("candidate", JString "candidate:1");
            ("sdpMid", JString "0");
            ("sdpMLineIndex", JString "0")]);
    [reflexivity | reflexivity | right; left; reflexivity].
Defined.

(** ** What the relay sends is what it accepts *)






(** ** Completion of set-local-description *)

Definition is_SocketSend (e : effect) : bool :=
  match e with SocketSend _ _ => true | _ => false end.

(** [OnSetLocalDescriptionComplete] never throws and leaves the observer as
    it is. On an engine error it logs the error and does nothing else; on
    success it logs the success and then either sends one frame holding the
    local description on the observer's own socket or, when the description
    does not serialize, logs that and sends nothing. So it sends exactly when
    the operation succeeded and the description serializes. *)
Theorem local_description_sent_only_on_success :
  forall (err : RTCError) (ty : SdpType) (text : option string)
         (obs : local_desc_observer),
    let o := OnSetLocalDescriptionComplete err (ty, text) obs in
    result o = inl tt
    /\ state o = obs
    /\ trace o =
       (if ok err
        then [Log info [TThis; TStr "SetLocalDescription succeeded"];
              match text with
              | Some sdp =>
                  SocketSend (ldo_socket obs)
                    (JObject [("description",
                               JObject [("type", JString (SdpTypeToString ty));
                                        ("sdp", JString sdp)])])
              | None => Log error [TThis; TStr "failed to serialize SDP"]
              end]
        else [Log error [TThis; TStr "SetLocalDescription failed:";
                         TStr (message err)]])
    /\ filter (fun e => is_SocketSend e = true) (trace o) =
       match text with
       | Some sdp =>
           if ok err
           then [SocketSend (ldo_socket obs)
                   (JObject [("description",
                              JObject [("type", JString (SdpTypeToString ty));
                                       ("sdp", JString sdp)])])]
           else []
       | None => []
       end.
Proof.
  intros err ty text obs. unfold OnSetLocalDescriptionComplete.
  destruct (ok err), text; cbn; repeat split; reflexivity.
Qed.

(** * Further properties of the endpoints *)

Lemma make_outcome :
  forall (eng : engine) (socket : nat) (callback : track_callback),
    webrtc_observer.make eng socket callback tt =
    match CreatePeerConnectionOrError eng webrtc_observer.config with
    | Value pc =>
        Outcome (inl (fresh_adapter pc socket callback)) tt
          [Log info [TStr ("created PeerConnection" +:+ newline)];
           SetMessageHandler socket]
    | Failure _ =>
        Outcome (inr (runtime_error "failed to create PeerConnection")) tt []
    end.
Proof.
  intros eng socket callback.
  unfold webrtc_observer.make, webrtc_observer.create_peer.
  destruct (CreatePeerConnectionOrError eng webrtc_observer.config); reflexivity.
Qed.

(** An engine that cannot create peer connections. *)
Definition exhausted_engine : engine :=
  {| CreatePeerConnectionOrError :=
       fun _ => Failure {| ok := false; message := "out of resources" |};
     signaling_state := fun _ => kStable;
     ShouldFireNegotiationNeededEvent := fun _ _ => true;
     RemoveTrackOrError := fun _ _ => RTCError_OK;
     AddTrack_result := fun _ _ _ => Value 7%nat;
     receiver_track := fun tr => (tr + 1000)%nat;
     enabled := fun _ => true;
     CreateIceCandidate := fun mid index sdp =>
       inl {| sdp_mid := mid; sdp_mline_index := index; candidate_sdp := sdp |} |}.

(** ** Sink endpoint *)

(** When the peer connection of a new sink cannot be created, the accept
    handler throws after its first log line and the sink endpoint is left
    exactly as it was: nothing is registered for the socket. *)
Theorem sink_on_open_creation_failure :
  forall (eng : engine) (hdl : nat) (e : RTCError) (s : sink_server.t),
    sink_server.connections s !! hdl = None ->
    CreatePeerConnectionOrError eng webrtc_observer.config = Failure e ->
    sink_server.on_open eng hdl s =
    Outcome (inr (runtime_error "failed to create PeerConnection")) s
      [Log info [TStr "New sink has appeared"]].
Proof.
  intros eng hdl e s Hfree Hfail. unfold sink_server.on_open.
  cbv [bind get log emit on_object]. rewrite Hfree, make_outcome, Hfail.
  reflexivity.
Qed.

Lemma sink_on_open_creation_failure_witness :
  sink_server.on_open exhausted_engine 2 streaming_sink =
  Outcome (inr (runtime_error "failed to create PeerConnection")) streaming_sink
    [Log info [TStr "New sink has appeared"]].
Proof.
  apply (sink_on_open_creation_failure exhausted_engine 2
           {| ok := false; message := "out of resources" |} streaming_sink);
    reflexivity.
Defined.

Lemma sink_on_close_outcome :
  forall (hdl : nat) (s : sink_server.t),
    sink_server.on_close hdl s =
    Outcome (inl tt) (sink_server.set_connections (delete hdl) s)
      (match sink_server.connections s !! hdl with
       | Some a => Log warning [TStr "source disconnected"] :: closing a
       | None => []
       end).
Proof.
  intros hdl [conns tr]. unfold sink_server.on_close. run_handler.
  destruct (conns !! hdl) as [a|] eqn:H; cbn; [reflexivity|].
  unfold sink_server.set_connections. cbn.
  now rewrite (delete_id conns hdl H).
Qed.

(** Closing a sink socket removes that socket's entry and nothing else: the
    adapter registered for it is destroyed (its peer connection closed), all
    other entries and the stored transceiver stay; for a socket that is not
    registered the handler does nothing at all. *)
Theorem sink_on_close_removes_only_that_socket :
  forall (hdl : nat) (s : sink_server.t),
    let o := sink_server.on_close hdl s in
    result o = inl tt
    /\ sink_server.connections (state o) !! hdl = None
    /\ (forall h : nat,
          h <> hdl ->
          sink_server.connections (state o) !! h = sink_server.connections s !! h)
    /\ sink_server.transceiver (state o) = sink_server.transceiver s
    /\ (forall a : webrtc_observer.t,
          sink_server.connections s !! hdl = Some a ->
          trace o = Log warning [TStr "source disconnected"] :: closing a)
    /\ (sink_server.connections s !! hdl = None -> o = Outcome (inl tt) s []).
Proof.
  intros hdl s o. subst o. rewrite sink_on_close_outcome. cbn.
  split; [reflexivity|]. split; [apply lookup_delete_eq|].
  split; [intros h Hne; now apply lookup_delete_ne|].
  split; [reflexivity|]. split.
  - intros a Ha. now rewrite Ha.
  - intros Hnone. rewrite Hnone. destruct s as [conns tr]. cbn in *.
    unfold sink_server.set_connections. cbn. now rewrite (delete_id conns hdl Hnone).
Qed.

Lemma sink_on_close_removes_only_that_socket_witness :
  sink_server.on_close 3 one_sink = Outcome (inl tt) one_sink [].
Proof.
  apply (sink_on_close_removes_only_that_socket 3 one_sink).
  vm_compute. reflexivity.
Defined.

(** Connect, then disconnect: a sink socket that is accepted and then closed
    leaves the sink endpoint as it was before the accept, and the peer
    connection created for it is closed. *)
Theorem sink_open_then_close_restores :
  forall (eng : engine) (hdl pc : nat) (s : sink_server.t),
    sink_server.connections s !! hdl = None ->
    CreatePeerConnectionOrError eng webrtc_observer.config = Value pc ->
    let opened := state (sink_server.on_open eng hdl s) in
    sink_server.on_close hdl opened =
    Outcome (inl tt) s
      [Log warning [TStr "source disconnected"];
       PeerClose pc; Log info [TThis; TStr "closing peer"]].
Proof.
  intros eng hdl pc [conns tr] Hfree Hpc opened. subst opened.
  rewrite sink_on_close_outcome.
  rewrite (sink_on_open_unregistered eng hdl pc _ Hfree Hpc).
  cbn in Hfree. cbn [sink_server.transceiver sink_server.connections].
  destruct tr as [t|];
    cbn [state]; unfold sink_server.set_connections;
    cbn [sink_server.connections sink_server.transceiver];
    rewrite ?switch_track_state, lookup_insert_eq, delete_insert_eq,
      (delete_id conns hdl Hfree); reflexivity.
Qed.

Lemma sink_open_then_close_restores_witness :
  sink_server.on_close 2 (state (sink_server.on_open healthy_engine 2 streaming_sink)) =
  Outcome (inl tt) streaming_sink
    [Log warning [TStr "source disconnected"];
     PeerClose 100; Log info [TThis; TStr "closing peer"]].
Proof.
  apply (sink_open_then_close_restores healthy_engine 2 100 streaming_sink);
    reflexivity.
Defined.

Lemma bind_step :
  forall (S A B : Type) (m : M S A) (k : A -> M S B) (s s1 : S) (a : A)
         (t1 : list effect),
    m s = Outcome (inl a) s1 t1 ->
    bind m k s =
    match k a s1 with
    | Outcome r s2 t2 => Outcome r s2 (t1 ++ t2)
    end.
Proof. intros S A B m k s s1 a t1 H. unfold bind. now rewrite H. Qed.

Ltac step := erewrite bind_step; [|reflexivity]; cbv beta.

Lemma in_registry :
  forall (m : gmap nat webrtc_observer.t) (k : nat) (v : webrtc_observer.t),
    (k, v) ∈ map_to_list m -> m !! k = Some v.
Proof. intros m k v H. now apply elem_of_map_to_list in H. Qed.

Lemma switch_source_body :
  forall (eng : engine) (tr k : nat) (v : webrtc_observer.t) (s : sink_server.t),
    sink_server.connections s !! k = Some v ->
    (switched <- on_object v (webrtc_observer.switch_track eng tr) ;;
     modify (sink_server.set_connections (insert k (snd switched)))) s =
    Outcome (inl tt) s (trace (webrtc_observer.switch_track eng tr v)).
Proof.
  intros eng tr k v [conns stored] H. cbn in H.
  unfold bind, on_object, modify.
  rewrite (switch_track_outcome eng tr v). cbn.
  unfold sink_server.set_connections. cbn.
  now rewrite (insert_id conns k v H), app_nil_r.
Qed.

Lemma switch_source_loop :
  forall (eng : engine) (tr : nat) (l : list (nat * webrtc_observer.t))
         (s : sink_server.t),
    (forall k v, (k, v) ∈ l -> sink_server.connections s !! k = Some v) ->
    for_each l
      (fun entry =>
         switched <- on_object (snd entry) (webrtc_observer.switch_track eng tr) ;;
         modify (sink_server.set_connections (insert (fst entry) (snd switched))))
      s =
    Outcome (inl tt) s
      (flat_map (fun entry => trace (webrtc_observer.switch_track eng tr (snd entry)))
         l).
Proof.
  intros eng tr l s Hl. induction l as [|[k v] l IH]; [reflexivity|].
  cbn [for_each flat_map fst snd]. unfold bind at 1.
  rewrite (switch_source_body eng tr k v s) by (apply Hl; left).
  rewrite IH by (intros k' v' H; apply Hl; now right).
  reflexivity.
Qed.

Lemma switch_source_outcome :
  forall (eng : engine) (tr : nat) (s : sink_server.t),
    sink_server.switch_source eng tr s =
    Outcome (inl tt) (sink_server.set_transceiver (Some tr) s)
      (Log info [TStr "switching sources"] ::
       flat_map (fun entry => trace (webrtc_observer.switch_track eng tr (snd entry)))
         (map_to_list (sink_server.connections s))).
Proof.
  intros eng tr s. unfold sink_server.switch_source.
  do 3 step.
  rewrite switch_source_loop by (intros k v; apply in_registry).
  reflexivity.
Qed.

(** [switch_source] cannot fail; it stores the transceiver and leaves the
    registry as it was; its calls are the log line "switching sources"
    followed by those of [switch_track] run exactly once on every registered
    sink adapter, adapter after adapter (in which order the adapters are
    taken is left open here). *)
Theorem switch_source_publishes_to_every_sink :
  forall (eng : engine) (tr : nat) (s : sink_server.t),
    let o := sink_server.switch_source eng tr s in
    result o = inl tt
    /\ sink_server.transceiver (state o) = Some tr
    /\ sink_server.connections (state o) = sink_server.connections s
    /\ exists visited : list (nat * webrtc_observer.t),
         visited ≡ₚ map_to_list (sink_server.connections s)
         /\ trace o =
            Log info [TStr "switching sources"] ::
            flat_map (fun entry =>
                        trace (webrtc_observer.switch_track eng tr (snd entry)))
              visited.
Proof.
  intros eng tr s o. subst o. rewrite switch_source_outcome.
  split; [reflexivity|]. split; [reflexivity|]. split; [reflexivity|].
  exists (map_to_list (sink_server.connections s)). split; reflexivity.
Qed.

(** Every registered sink that holds no sender is asked to add the new
    transceiver's track to its peer connection, under the stream label
    "mirrored_stream". *)
Theorem switch_source_adds_track_to_each_sink :
  forall (eng : engine) (tr hdl : nat) (a : webrtc_observer.t) (s : sink_server.t),
    sink_server.connections s !! hdl = Some a ->
    webrtc_observer.current_sender a = None ->
    AddTrack (webrtc_observer.peer a) (receiver_track eng tr) ["mirrored_stream"]
    ∈ trace (sink_server.switch_source eng tr s).
Proof.
  intros eng tr hdl a s Hreg Hsender.
  rewrite switch_source_outcome. cbn [trace].
  right. apply list_elem_of_In, in_flat_map.
  exists (hdl, a). split.
  - apply list_elem_of_In, elem_of_map_to_list, Hreg.
  - cbn [snd]. unfold webrtc_observer.switch_track. run_handler.
    rewrite Hsender. cbn.
    destruct (AddTrack_result eng (webrtc_observer.peer a) (receiver_track eng tr)
                ["mirrored_stream"]); left; reflexivity.
Qed.

Lemma switch_source_adds_track_to_each_sink_witness :
  AddTrack 101 1009 ["mirrored_stream"]
  ∈ trace (sink_server.switch_source healthy_engine 9 one_sink).
Proof.
  apply (switch_source_adds_track_to_each_sink healthy_engine 9 2
           (fresh_adapter 101 2 ignore_track) one_sink); reflexivity.
Defined.

Lemma close_all_loop :
  forall (l : list (nat * webrtc_observer.t)) (s : sink_server.t),
    for_each l
      (fun entry =>
         emit (SocketClose (fst entry) going_away "Server shutting down") ;;;
         release (Some (snd entry)))
      s =
    Outcome (inl tt) s
      (flat_map (fun entry =>
                   SocketClose (fst entry) going_away "Server shutting down"
                   :: closing (snd entry)) l).
Proof.
  intros l s. induction l as [|entry l IH]; [reflexivity|].
  cbn [for_each flat_map]. unfold bind at 1. unfold bind at 1.
  unfold emit at 1. rewrite release_closing, IH. reflexivity.
Qed.

(** [sink_server::close_all] closes every registered socket with "going
    away" and the reason "Server shutting down", destroys its adapter right
    after, and ends with an empty registry; the stored transceiver is kept. *)
Theorem sink_close_all_closes_every_socket :
  forall s : sink_server.t,
    sink_server.close_all s =
    Outcome (inl tt) (sink_server.set_connections (fun _ => ∅) s)
      (Log info [TStr "closing source connections"] ::
       flat_map (fun entry =>
                   SocketClose (fst entry) going_away "Server shutting down"
                   :: closing (snd entry))
         (map_to_list (sink_server.connections s))).
Proof.
  intros s. unfold sink_server.close_all. do 2 step.
  unfold bind. rewrite close_all_loop. cbn. now rewrite app_nil_r.
Qed.

(** ** Source endpoint *)

Lemma source_on_open_empty :
  forall (eng : engine) (hdl : nat) (s : source_server.t),
    source_server.connection s = None ->
    source_server.on_open eng hdl s =
    match CreatePeerConnectionOrError eng webrtc_observer.config with
    | Value pc =>
        Outcome (inl tt)
          {| source_server.connection := Some hdl;
             source_server.peer :=
               Some (fresh_adapter pc hdl forward_to_source_server) |}
          ([Log info [TStr ("created PeerConnection" +:+ newline)];
            SetMessageHandler hdl]
           ++ match source_server.peer s with
              | Some old => closing old
              | None => []
              end)
    | Failure _ =>
        Outcome (inr (runtime_error "failed to create PeerConnection"))
          (source_server.set_connection (Some hdl) s) []
    end.
Proof.
  intros eng hdl [c p] H. cbn in H. subst c. unfold source_server.on_open.
  do 1 step. cbn [source_server.connection]. do 1 step.
  unfold bind at 1. unfold on_object. rewrite make_outcome.
  destruct (CreatePeerConnectionOrError eng webrtc_observer.config) as [pc|e];
    [|reflexivity].
  cbn [fst source_server.peer]. unfold bind, modify. rewrite release_closing.
  reflexivity.
Qed.



(** Connect, then disconnect: a source accepted into an empty endpoint and
    then closed leaves the endpoint empty again, and the peer connection that
    was created for it is closed. *)
Theorem source_open_then_close_restores :
  forall (eng : engine) (hdl pc : nat),
    CreatePeerConnectionOrError eng webrtc_observer.config = Value pc ->
    let opened := state (source_server.on_open eng hdl source_server.init) in
    source_server.peer opened = Some (fresh_adapter pc hdl forward_to_source_server)
    /\ source_server.on_close hdl opened =
       Outcome (inl tt) source_server.init
         [Log warning [TStr "source disconnected"];
          PeerClose pc; Log info [TThis; TStr "closing peer"]].
Proof.
  intros eng hdl pc Hpc opened. subst opened.
  rewrite (source_on_open_empty eng hdl source_server.init eq_refl), Hpc.
  cbn [state]. split; [reflexivity|].
  now rewrite (source_on_close_current
                 {| source_server.connection := Some hdl;
                    source_server.peer :=
                      Some (fresh_adapter pc hdl forward_to_source_server) |}
                 hdl eq_refl).
Qed.

Lemma source_open_then_close_restores_witness :
  source_server.on_close 1
    (state (source_server.on_open healthy_engine 1 source_server.init)) =
  Outcome (inl tt) source_server.init
    [Log warning [TStr "source disconnected"];
     PeerClose 100; Log info [TThis; TStr "closing peer"]].
Proof.
  apply (proj2 (source_open_then_close_restores healthy_engine 1 100 eq_refl)).
Defined.

(** A close event for any socket other than the current source (a turned-away
    duplicate, or any socket while the endpoint is empty) does nothing: the
    current source and its adapter stay, nothing is logged. *)
Theorem source_on_close_other_socket :
  forall (hdl : nat) (s : source_server.t),
    source_server.connection s <> Some hdl ->
    source_server.on_close hdl s = Outcome (inl tt) s [].
Proof.
  intros hdl s H. unfold source_server.on_close. run_handler.
  now rewrite bool_decide_eq_false_2.
Qed.

Lemma source_on_close_other_socket_witness :
  source_server.on_close 2 (source relay_streaming) =
  Outcome (inl tt) (source relay_streaming) [].
Proof.
  apply (source_on_close_other_socket 2 (source relay_streaming)).
  vm_compute. discriminate.
Defined.

(** [source_server::close_all] closes the source socket with "going away"
    and destroys the adapter, but keeps the socket in the slot: until a close
    event for that socket arrives, a new source is still turned away. *)
Theorem source_close_all_keeps_slot :
  forall (eng : engine) (c hdl : nat) (p : option webrtc_observer.t),
    let s := {| source_server.connection := Some c; source_server.peer := p |} in
    let closed := {| source_server.connection := Some c;
                     source_server.peer := None |} in
    source_server.close_all s =
      Outcome (inl tt) closed
        ([Log info [TStr "closing source connection"];
          SocketClose c going_away "Server shutting down"]
         ++ match p with Some a => closing a | None => [] end)
    /\ source_server.on_open eng hdl closed =
       Outcome (inl tt) closed
         [Log warning [TStr "rejecting sink connection; one already exists"]]
    /\ source_server.on_close c closed =
       Outcome (inl tt) source_server.init
         [Log warning [TStr "source disconnected"]].
Proof.
  intros eng c hdl p s closed. subst s closed. split; [|split].
  - unfold source_server.close_all. run_handler. destruct p; reflexivity.
  - reflexivity.
  - now rewrite (source_on_close_current
                   {| source_server.connection := Some c;
                      source_server.peer := None |} c eq_refl).
Qed.

(** ** Track delivery *)

Lemma OnTrack_outcome :
  forall (eng : engine) (a : webrtc_observer.t) (tr : nat) (r : relay),
    OnTrack eng a tr r =
    match webrtc_observer.on_track a with
    | ignore_track => Outcome (inl tt) r []
    | forward_to_source_server =>
        Outcome (inl tt)
          {| sink := sink_server.set_transceiver (Some tr) (sink r);
             source := source r |}
          (trace (source_server_on_track eng tr r))
    end.
Proof.
  intros eng a tr r. unfold OnTrack.
  destruct (webrtc_observer.on_track a); [reflexivity|].
  unfold source_server_on_track. step.
  destruct (enabled eng (receiver_track eng tr)); step;
    unfold in_sink; rewrite switch_source_outcome; reflexivity.
Qed.

(** A track reported by a sink adapter's peer is ignored: no call, no
    change. A track reported by the source adapter's peer is logged ("track
    added", and "track enabled" when its receiver track is enabled) and handed
    to [switch_source]: it becomes the stored transceiver of the sink
    endpoint and [switch_track] is run exactly once on every registered sink
    adapter (in which order the adapters are taken is left open here). In
    both cases the call cannot fail and the source endpoint and the sink
    registry are unchanged. *)
Theorem OnTrack_reaches_sink_endpoint_from_source_only :
  forall (eng : engine) (a : webrtc_observer.t) (tr : nat) (r : relay),
    let o := OnTrack eng a tr r in
    result o = inl tt
    /\ source (state o) = source r
    /\ sink_server.connections (sink (state o)) = sink_server.connections (sink r)
    /\ sink_server.transceiver (sink (state o)) =
       match webrtc_observer.on_track a with
       | ignore_track => sink_server.transceiver (sink r)
       | forward_to_source_server => Some tr
       end
    /\ (webrtc_observer.on_track a = ignore_track -> trace o = [])
    /\ (webrtc_observer.on_track a = forward_to_source_server ->
        exists visited : list (nat * webrtc_observer.t),
          visited ≡ₚ map_to_list (sink_server.connections (sink r))
          /\ trace o =
             Log info [TStr "track added"; TPtr tr] ::
             (if enabled eng (receiver_track eng tr)
              then [Log info [TStr "track enabled"; TPtr tr]]
              else [])
             ++ Log info [TStr "switching sources"] ::
                flat_map (fun entry =>
                            trace (webrtc_observer.switch_track eng tr (snd entry)))
                  visited).
Proof.
  intros eng a tr r o. subst o. rewrite OnTrack_outcome.
  destruct (webrtc_observer.on_track a); cbn [result state trace sink source].
  - repeat split; intros; discriminate.
  - split; [reflexivity|]. split; [reflexivity|]. split; [reflexivity|].
    split; [reflexivity|]. split; [intros; discriminate|]. intros _.
    exists (map_to_list (sink_server.connections (sink r))).
    split; [reflexivity|].
    unfold source_server_on_track. step.
    destruct (enabled eng (receiver_track eng tr)); step;
      unfold in_sink; rewrite switch_source_outcome; reflexivity.
Qed.

Lemma OnTrack_reaches_sink_endpoint_from_source_only_witness :
  trace (OnTrack healthy_engine (fresh_adapter 101 2 ignore_track) 9
           relay_streaming) = [].
Proof.
  apply (OnTrack_reaches_sink_endpoint_from_source_only healthy_engine
           (fresh_adapter 101 2 ignore_track) 9 relay_streaming).
  reflexivity.
Defined.

(** * Runs of the relay *)

Inductive IceGatheringState :=
| kIceGatheringNew
| kIceGatheringGathering
| kIceGatheringComplete.

(** [webrtc_observer::OnIceGatheringChange]. *)
Definition OnIceGatheringChange (st : IceGatheringState)
    : M webrtc_observer.t unit :=
  log info [TThis; TStr "ICE gathering state change:";
            TStr match st with
                 | kIceGatheringComplete => "Complete"
                 | kIceGatheringGathering => "Gathering"
                 | kIceGatheringNew => "New"
                 end].

(** The adapter a socket or engine callback is delivered to: the source
    endpoint's, or the one a sink socket is registered with. *)
Inductive adapter_ref := source_adapter | sink_adapter (hdl : nat).

Definition adapter_at (target : adapter_ref) (r : relay)
    : option webrtc_observer.t :=
  match target with
  | source_adapter => source_server.peer (source r)
  | sink_adapter hdl => sink_server.connections (sink r) !! hdl
  end.

(** Run a member function of the adapter [target] refers to; the adapter is
    an object owned by its endpoint, so what the function writes is seen
    through the endpoint afterwards. With no such adapter nothing runs. *)
Definition on_adapter (target : adapter_ref) (m : M webrtc_observer.t unit)
    : M relay unit :=
  fun r =>
    match adapter_at target r with
    | None => Outcome (inl tt) r []
    | Some a =>
        match m a with
        | Outcome res a' t =>
            Outcome res
              match target with
              | source_adapter =>
                  {| sink := sink r;
                     source := source_server.set_peer (Some a') (source r) |}
              | sink_adapter hdl =>
                  {| sink := sink_server.set_connections (insert hdl a') (sink r);
                     source := source r |}
              end
              t
        end
    end.

(** The calls that the two listeners and the media engine make into the
    relay while it runs. They are taken one at a time, each running to its
    end: the listener threads and the signal thread are not interleaved, so
    what is stated over runs below is about members that no call leaves
    changed half-way. *)
Inductive call :=
| sink_opened (eng : engine) (hdl : nat)
| sink_closed (hdl : nat)
| source_opened (eng : engine) (hdl : nat)
| source_closed (hdl : nat)
| frame_received (target : adapter_ref) (eng : engine) (hdl : nat)
    (msg : message_ptr)
| negotiation_needed (target : adapter_ref) (eng : engine) (id : Z)
| candidate_added (target : adapter_ref) (err : RTCError)
| signaling_changed (target : adapter_ref) (st : SignalingState)
| gathering_changed (target : adapter_ref) (st : IceGatheringState)
| data_channel_added (target : adapter_ref)
| candidate_gathered (target : adapter_ref) (c : IceCandidate)
    (text : option string)
| track_added (target : adapter_ref) (eng : engine) (tr : nat).

Definition run (c : call) : M relay unit :=
  match c with
  | sink_opened eng hdl => in_sink (sink_server.on_open eng hdl)
  | sink_closed hdl => in_sink (sink_server.on_close hdl)
  | source_opened eng hdl => in_source (source_server.on_open eng hdl)
  | source_closed hdl => in_source (source_server.on_close hdl)
  | frame_received target eng hdl msg =>
      on_adapter target (webrtc_observer.on_message eng hdl msg)
  | negotiation_needed target eng id =>
      on_adapter target (webrtc_observer.OnNegotiationNeededEvent eng id)
  | candidate_added target err =>
      on_adapter target (webrtc_observer.on_add_ice_candidate_complete err)
  | signaling_changed target st =>
      on_adapter target (webrtc_observer.OnSignalingChange st)
  | gathering_changed target st =>
      on_adapter target (OnIceGatheringChange st)
  | data_channel_added target =>
      on_adapter target webrtc_observer.OnDataChannel
  | candidate_gathered target c text =>
      on_adapter target (webrtc_observer.OnIceCandidate c text)
  | track_added target eng tr =>
      fun r =>
        match adapter_at target r with
        | Some a => OnTrack eng a tr r
        | None => Outcome (inl tt) r []
        end
  end.

(** The state after a sequence of calls, starting from [r]. *)
Definition run_all (calls : list call) (r : relay) : relay :=
  fold_left (fun r c => state (run c r)) calls r.

(** An adapter in the shape its endpoint built it in. *)
Definition adapter_ok (socket : nat) (callback : track_callback)
    (a : webrtc_observer.t) : Prop :=
  webrtc_observer.signal_socket a = socket
  /\ webrtc_observer.on_track a = callback
  /\ webrtc_observer.current_sender a = None
  /\ webrtc_observer.making_offer a = false.

Definition relay_ok (r : relay) : Prop :=
  map_Forall (fun hdl a => adapter_ok hdl ignore_track a)
    (sink_server.connections (sink r))
  /\ forall a : webrtc_observer.t,
       source_server.peer (source r) = Some a ->
       exists c : nat,
         source_server.connection (source r) = Some c
         /\ adapter_ok c forward_to_source_server a.

Lemma fresh_adapter_ok :
  forall (pc socket : nat) (callback : track_callback),
    adapter_ok socket callback (fresh_adapter pc socket callback).
Proof. intros pc socket callback. repeat split. Qed.

(** What the callbacks delivered to one adapter may do to it. *)
Definition keeps_adapter_ok (m : M webrtc_observer.t unit) : Prop :=
  forall (socket : nat) (callback : track_callback) (a : webrtc_observer.t),
    adapter_ok socket callback a -> adapter_ok socket callback (state (m a)).

Lemma on_message_keeps_ok :
  forall (eng : engine) (hdl : nat) (msg : message_ptr),
    keeps_adapter_ok (webrtc_observer.on_message eng hdl msg).
Proof.
  intros eng hdl msg socket callback a (Hs & Hc & Hn & Hm).
  destruct (on_message_shape eng hdl msg a) as [(_ & Hs' & Hc' & Hn' & Hm') _].
  unfold adapter_ok. now rewrite Hs', Hc', Hn', Hm'.
Qed.

Lemma negotiation_keeps_ok :
  forall (eng : engine) (id : Z),
    keeps_adapter_ok (webrtc_observer.OnNegotiationNeededEvent eng id).
Proof.
  intros eng id socket callback a H. unfold webrtc_observer.OnNegotiationNeededEvent.
  run_handler.
  destruct (ShouldFireNegotiationNeededEvent eng (webrtc_observer.peer a) id);
    cbn; [|exact H].
  destruct H as (Hs & Hc & Hn & _). repeat split; assumption.
Qed.

Lemma unchanged_keeps_ok :
  forall m : M webrtc_observer.t unit,
    (forall a, state (m a) = a) -> keeps_adapter_ok m.
Proof. intros m H socket callback a Hok. now rewrite H. Qed.

Lemma on_adapter_keeps_relay_ok :
  forall (target : adapter_ref) (m : M webrtc_observer.t unit) (r : relay),
    keeps_adapter_ok m -> relay_ok r -> relay_ok (state (on_adapter target m r)).
Proof.
  intros target m r Hm [Hsink Hsource]. unfold on_adapter.
  destruct (adapter_at target r) as [a|] eqn:Hat; [|split; assumption].
  pose proof (Hm) as Hm'. unfold keeps_adapter_ok in Hm'.
  destruct (m a) as [res a' t] eqn:Hrun. cbn [state].
  destruct target as [|hdl]; cbn in Hat.
  - split; [exact Hsink|]. cbn. intros b Hb. inversion Hb; subst b.
    destruct (Hsource a Hat) as (c & Hc & Hok). exists c. split; [exact Hc|].
    specialize (Hm' c forward_to_source_server a Hok).
    now rewrite Hrun in Hm'.
  - split; [|exact Hsource]. cbn. apply map_Forall_insert_2; [|exact Hsink].
    specialize (Hm' hdl ignore_track a (Hsink hdl a Hat)).
    now rewrite Hrun in Hm'.
Qed.

Lemma sink_on_open_state :
  forall (eng : engine) (hdl : nat) (s : sink_server.t),
    state (sink_server.on_open eng hdl s) =
    match sink_server.connections s !! hdl,
          CreatePeerConnectionOrError eng webrtc_observer.config with
    | None, Value pc =>
        sink_server.set_connections
          (insert hdl (fresh_adapter pc hdl ignore_track)) s
    | _, _ => s
    end.
Proof.
  intros eng hdl s.
  destruct (sink_server.connections s !! hdl) as [a|] eqn:Hreg.
  - unfold sink_server.on_open. run_handler. now rewrite Hreg.
  - destruct (CreatePeerConnectionOrError eng webrtc_observer.config)
      as [pc|e] eqn:Hpc.
    + rewrite (sink_on_open_unregistered eng hdl pc s Hreg Hpc).
      destruct (sink_server.transceiver s); cbn [state];
        [now rewrite switch_track_state | reflexivity].
    + unfold sink_server.on_open. cbv [bind get log emit on_object].
      now rewrite Hreg, make_outcome, Hpc.
Qed.

Lemma source_on_open_state :
  forall (eng : engine) (hdl : nat) (s : source_server.t),
    state (source_server.on_open eng hdl s) =
    match source_server.connection s,
          CreatePeerConnectionOrError eng webrtc_observer.config with
    | Some _, _ => s
    | None, Value pc =>
        {| source_server.connection := Some hdl;
           source_server.peer :=
             Some (fresh_adapter pc hdl forward_to_source_server) |}
    | None, Failure _ => source_server.set_connection (Some hdl) s
    end.
Proof.
  intros eng hdl s. destruct (source_server.connection s) as [c|] eqn:Hc.
  - destruct s as [c' p]. cbn in Hc. subst c'. reflexivity.
  - rewrite (source_on_open_empty eng hdl s Hc).
    destruct (CreatePeerConnectionOrError eng webrtc_observer.config); reflexivity.
Qed.

Lemma source_on_close_state :
  forall (hdl : nat) (s : source_server.t),
    state (source_server.on_close hdl s) =
    if bool_decide (source_server.connection s = Some hdl)
    then source_server.init else s.
Proof.
  intros hdl s. unfold source_server.on_close. run_handler.
  destruct (bool_decide (source_server.connection s = Some hdl)); [|reflexivity].
  cbn. destruct (source_server.peer s); reflexivity.
Qed.

Lemma run_keeps_relay_ok :
  forall (c : call) (r : relay), relay_ok r -> relay_ok (state (run c r)).
Proof.
  intros c r Hok. pose proof Hok as [Hsink Hsource].
  destruct c; cbn [run];
    try (apply on_adapter_keeps_relay_ok; [|exact Hok]).
  - unfold in_sink. destruct (sink_server.on_open eng hdl (sink r)) eqn:Hrun.
    pose proof (sink_on_open_state eng hdl (sink r)) as Hst.
    rewrite Hrun in Hst. cbn in Hst. cbn [state]. subst. split; [|exact Hsource].
    cbn [sink].
    destruct (sink_server.connections (sink r) !! hdl); [exact Hsink|].
    destruct (CreatePeerConnectionOrError eng webrtc_observer.config);
      [|exact Hsink].
    cbn. apply map_Forall_insert_2; [apply fresh_adapter_ok | exact Hsink].
  - unfold in_sink. rewrite sink_on_close_outcome. cbn.
    split; [|exact Hsource]. now apply map_Forall_delete.
  - unfold in_source.
    destruct (source_server.on_open eng hdl (source r)) eqn:Hrun.
    pose proof (source_on_open_state eng hdl (source r)) as Hst.
    rewrite Hrun in Hst. cbn in Hst. cbn [state]. subst.
    split; [exact Hsink|]. cbn [source].
    destruct (source_server.connection (source r)) eqn:Hc; [exact (proj2 Hok)|].
    destruct (CreatePeerConnectionOrError eng webrtc_observer.config).
    + cbn. intros b Hb. inversion Hb; subst b. exists hdl.
      split; [reflexivity | apply fresh_adapter_ok].
    + cbn. intros b Hb. destruct (Hsource b Hb) as (c & Hc' & _). congruence.
  - unfold in_source.
    destruct (source_server.on_close hdl (source r)) eqn:Hrun.
    pose proof (source_on_close_state hdl (source r)) as Hst.
    rewrite Hrun in Hst. cbn in Hst. cbn [state]. subst.
    split; [exact Hsink|]. cbn [source].
    destruct (bool_decide (source_server.connection (source r) = Some hdl));
      [|exact Hsource].
    cbn. intros b Hb. discriminate.
  - apply on_message_keeps_ok.
  - apply negotiation_keeps_ok.
  - apply unchanged_keeps_ok. intros a.
    unfold webrtc_observer.on_add_ice_candidate_complete.
    destruct (negb (ok err)); reflexivity.
  - apply unchanged_keeps_ok. reflexivity.
  - apply unchanged_keeps_ok. reflexivity.
  - apply unchanged_keeps_ok. reflexivity.
  - apply unchanged_keeps_ok. intros a. unfold webrtc_observer.OnIceCandidate.
    destruct text; reflexivity.
  - destruct (adapter_at target r) as [a|]; [|exact Hok].
    rewrite OnTrack_outcome.
    destruct (webrtc_observer.on_track a); [exact Hok|].
    split; [exact Hsink | exact Hsource].
Qed.

Lemma init_relay_ok : relay_ok init_relay.
Proof.
  split; [apply map_Forall_empty | intros a H; discriminate].
Qed.

Lemma run_all_keeps_relay_ok :
  forall (calls : list call) (r : relay), relay_ok r -> relay_ok (run_all calls r).
Proof.
  induction calls as [|c calls IH]; intros r Hok; [exact Hok|].
  apply IH, run_keeps_relay_ok, Hok.
Qed.

(** ** What holds in every state the relay can reach *)

Lemma reachable_adapter_ok :
  forall (calls : list call) (target : adapter_ref) (a : webrtc_observer.t),
    adapter_at target (run_all calls init_relay) = Some a ->
    exists socket callback,
      adapter_ok socket callback a
      /\ match target with
         | sink_adapter hdl => socket = hdl /\ callback = ignore_track
         | source_adapter =>
             source_server.connection (source (run_all calls init_relay)) =
               Some socket
             /\ callback = forward_to_source_server
         end.
Proof.
  intros calls target a Hat.
  destruct (run_all_keeps_relay_ok calls init_relay init_relay_ok) as [Hsink Hsource].
  destruct target as [|hdl]; cbn in Hat.
  - destruct (Hsource a Hat) as (c & Hc & Hok).
    exists c, forward_to_source_server. auto.
  - exists hdl, ignore_track. split; [exact (Hsink hdl a Hat) | auto].
Qed.

(** However the relay got there, every adapter is bound to the socket it is
    filed under: a sink adapter registered for a socket signals on that
    socket and ignores tracks, and whenever the source endpoint has an
    adapter, its slot holds the socket that adapter signals on and the
    adapter forwards tracks to the source endpoint. *)
Theorem adapters_stay_bound_to_their_socket :
  forall (calls : list call) (target : adapter_ref) (a : webrtc_observer.t),
    adapter_at target (run_all calls init_relay) = Some a ->
    match target with
    | sink_adapter hdl =>
        webrtc_observer.signal_socket a = hdl
        /\ webrtc_observer.on_track a = ignore_track
    | source_adapter =>
        source_server.connection (source (run_all calls init_relay)) =
          Some (webrtc_observer.signal_socket a)
        /\ webrtc_observer.on_track a = forward_to_source_server
    end.
Proof.
  intros calls target a Hat.
  destruct (reachable_adapter_ok calls target a Hat)
    as (socket & callback & (Hs & Hc & _) & Htarget).
  destruct target as [|hdl].
  - destruct Htarget as [Hconn ->]. now rewrite Hs.
  - destruct Htarget as [-> ->]. auto.
Qed.

Definition two_viewers : list call :=
  [source_opened healthy_engine 1;
   sink_opened (healthy_engine_for 101) 2;
   track_added source_adapter healthy_engine 5;
   sink_opened (healthy_engine_for 102) 3;
   negotiation_needed (sink_adapter 2) healthy_engine 0;
   frame_received (sink_adapter 2) healthy_engine 2 glare_offer].

Lemma adapters_stay_bound_to_their_socket_witness :
  webrtc_observer.signal_socket (fresh_adapter 102 3 ignore_track) = 3%nat
  /\ webrtc_observer.on_track (fresh_adapter 102 3 ignore_track) = ignore_track.
Proof.
  apply (adapters_stay_bound_to_their_socket two_viewers (sink_adapter 3)
           (fresh_adapter 102 3 ignore_track)).
  vm_compute. reflexivity.
Defined.

Definition is_RemoveTrack (e : effect) : bool :=
  match e with RemoveTrack _ _ => true | _ => false end.

Lemma switch_track_no_remove :
  forall (eng : engine) (tr : nat) (a : webrtc_observer.t),
    webrtc_observer.current_sender a = None ->
    existsb is_RemoveTrack (trace (webrtc_observer.switch_track eng tr a)) = false.
Proof.
  intros eng tr a H. unfold webrtc_observer.switch_track. run_handler.
  rewrite H. cbn.
  destruct (AddTrack_result eng (webrtc_observer.peer a) (receiver_track eng tr)
              ["mirrored_stream"]); reflexivity.
Qed.

Lemma signaling_calls_no_remove :
  forall t : list effect,
    forallb is_signaling_call t = true -> existsb is_RemoveTrack t = false.
Proof.
  induction t as [|e t IH]; [reflexivity|]. cbn. intros H.
  apply andb_prop in H as [He Ht]. rewrite (IH Ht).
  destruct e; try discriminate; reflexivity.
Qed.

Lemma fan_out_no_remove :
  forall (eng : engine) (tr : nat) (l : list (nat * webrtc_observer.t)),
    (forall entry, In entry l -> webrtc_observer.current_sender (snd entry) = None) ->
    existsb is_RemoveTrack
      (flat_map (fun entry => trace (webrtc_observer.switch_track eng tr (snd entry)))
         l) = false.
Proof.
  intros eng tr l H. induction l as [|entry l IH]; [reflexivity|].
  cbn [flat_map]. rewrite existsb_app, switch_track_no_remove, IH; auto.
  - intros e He. apply H. now right.
  - apply H. now left.
Qed.

Lemma on_adapter_trace :
  forall (target : adapter_ref) (m : M webrtc_observer.t unit) (r : relay),
    trace (on_adapter target m r) =
    match adapter_at target r with
    | Some a => trace (m a)
    | None => []
    end.
Proof.
  intros target m r. unfold on_adapter.
  destruct (adapter_at target r) as [a|]; [|reflexivity].
  destruct (m a); reflexivity.
Qed.

Lemma run_no_remove :
  forall (c : call) (r : relay),
    relay_ok r -> existsb is_RemoveTrack (trace (run c r)) = false.
Proof.
  intros c r [Hsink Hsource].
  destruct c; cbn [run]; rewrite ?on_adapter_trace;
    try (destruct (adapter_at target r) as [a|]; [|reflexivity]).
  - unfold in_sink.
    destruct (sink_server.connections (sink r) !! hdl) as [a|] eqn:Hreg.
    + unfold sink_server.on_open. run_handler. now rewrite Hreg.
    + destruct (CreatePeerConnectionOrError eng webrtc_observer.config)
        as [pc|e] eqn:Hpc.
      * rewrite (sink_on_open_unregistered eng hdl pc _ Hreg Hpc).
        destruct (sink_server.transceiver (sink r)); cbn [trace]; [|reflexivity].
        rewrite existsb_app. cbn [accepted existsb is_RemoveTrack orb].
        now apply switch_track_no_remove.
      * unfold sink_server.on_open. cbv [bind get log emit on_object].
        now rewrite Hreg, make_outcome, Hpc.
  - unfold in_sink. rewrite sink_on_close_outcome. cbn [trace].
    destruct (sink_server.connections (sink r) !! hdl); reflexivity.
  - unfold in_source.
    destruct (source_server.connection (source r)) as [c|] eqn:Hc.
    + destruct (source r) as [c' p]. cbn in Hc. subst c'. reflexivity.
    + rewrite (source_on_open_empty eng hdl _ Hc).
      destruct (CreatePeerConnectionOrError eng webrtc_observer.config);
        [|reflexivity].
      destruct (source_server.peer (source r)); reflexivity.
  - unfold in_source, source_server.on_close. run_handler.
    destruct (bool_decide (source_server.connection (source r) = Some hdl));
      [|reflexivity].
    cbn. destruct (source_server.peer (source r)); reflexivity.
  - apply signaling_calls_no_remove, (on_message_shape eng hdl msg a).
  - unfold webrtc_observer.OnNegotiationNeededEvent. run_handler.
    destruct (ShouldFireNegotiationNeededEvent eng (webrtc_observer.peer a) id);
      reflexivity.
  - unfold webrtc_observer.on_add_ice_candidate_complete.
    destruct (negb (ok err)); reflexivity.
  - reflexivity.
  - reflexivity.
  - reflexivity.
  - unfold webrtc_observer.OnIceCandidate. destruct text; reflexivity.
  - rewrite OnTrack_outcome.
    destruct (webrtc_observer.on_track a); cbn [trace]; [reflexivity|].
    unfold source_server_on_track. step.
    destruct (enabled eng (receiver_track eng tr)); step;
      unfold in_sink; rewrite switch_source_outcome; cbn;
      apply fan_out_no_remove; intros [k v] Hin;
      apply list_elem_of_In, elem_of_map_to_list in Hin;
      apply (Hsink k v Hin).
Qed.

(** However the relay got there, no adapter holds a sender, and so no call
    into the relay ever asks the engine to remove a track: each new
    transceiver is added to the sinks' peer connections on top of whatever
    was added before. *)
Theorem no_track_is_ever_removed :
  forall (calls : list call) (c : call),
    (forall (target : adapter_ref) (a : webrtc_observer.t),
        adapter_at target (run_all calls init_relay) = Some a ->
        webrtc_observer.current_sender a = None)
    /\ existsb is_RemoveTrack (trace (run c (run_all calls init_relay))) = false.
Proof.
  intros calls c. split.
  - intros target a Hat.
    destruct (reachable_adapter_ok calls target a Hat)
      as (socket & callback & (_ & _ & Hn & _) & _).
    exact Hn.
  - apply run_no_remove, run_all_keeps_relay_ok, init_relay_ok.
Qed.

Lemma no_track_is_ever_removed_witness :
  webrtc_observer.current_sender (fresh_adapter 102 3 ignore_track) = None
  /\ existsb is_RemoveTrack
       (trace (run (track_added source_adapter healthy_engine 6)
                 (run_all two_viewers init_relay))) = false.
Proof.
  destruct (no_track_is_ever_removed two_viewers
              (track_added source_adapter healthy_engine 6)) as [Hsender Htrace].
  split; [|exact Htrace].
  apply (Hsender (sink_adapter 3) (fresh_adapter 102 3 ignore_track)).
  vm_compute. reflexivity.
Defined.

(** ** Supervisor *)

(** At shutdown the peer connection of every adapter that is still held, the
    source's and each registered sink's, is closed. *)
Theorem main_shutdown_closes_every_peer :
  forall (r : relay) (target : adapter_ref) (a : webrtc_observer.t),
    adapter_at target r = Some a ->
    PeerClose (webrtc_observer.peer a) ∈ trace (main_shutdown r).
Proof.
  intros r target a Hat. rewrite main_shutdown_outcome. cbn [trace].
  unfold shutdown_trace. apply list_elem_of_In.
  apply in_or_app. right. destruct target as [|hdl]; cbn in Hat.
  - apply in_or_app. left. rewrite Hat. now left.
  - apply in_or_app. right. apply in_or_app. right. apply in_or_app. left.
    apply in_flat_map. exists (hdl, a). split.
    + apply list_elem_of_In, elem_of_map_to_list, Hat.
    + now left.
Qed.

Lemma main_shutdown_closes_every_peer_witness :
  PeerClose 101 ∈ trace (main_shutdown relay_with_viewer).
Proof.
  apply (main_shutdown_closes_every_peer relay_with_viewer (sink_adapter 2)
           (fresh_adapter 101 2 ignore_track)).
  vm_compute. reflexivity.
Defined.

(** * The single-peer receiver

    The second program of the sources is the earlier receiver: one class
    [observer] that owns the listener, one peer connection and at most one
    signaling connection, and writes its diagnostics to [std::cerr]. Its
    handlers are embedded over their own list of calls. *)

Module observer.

Inductive IceConnectionState :=
| kIceConnectionNew
| kIceConnectionChecking
| kIceConnectionConnected
| kIceConnectionCompleted
| kIceConnectionFailed
| kIceConnectionDisconnected
| kIceConnectionClosed
| kIceConnectionMax.

(** What a handler does, in program order. *)
Inductive event :=
| Cerr (text : string)
| ServerClose (hdl : connection_hdl) (code : close_status) (reason : string)
| ServerSend (hdl : connection_hdl) (frame : json)
| PeerSetRemoteDescription (type : SdpType) (sdp : string)
| PeerCreateAnswer
| PeerAddIceCandidate (candidate : IceCandidate).

(** [connection] is a weak handle: [None] is the empty handle, and a stored
    handle is expired once the transport has dropped the connection object,
    which [alive] tells. *)
Record t := { connection : option connection_hdl; track : option track_ptr }.

Definition set_connection (c : option connection_hdl) (s : t) : t :=
  {| connection := c; track := track s |}.

(** [lock] on a weak handle: the connection it refers to, if that still
    exists. *)
Definition lock (alive : nat -> bool) (h : option connection_hdl)
    : option connection_hdl :=
  match h with
  | Some hdl => if alive hdl then Some hdl else None
  | None => None
  end.

Definition expired (alive : nat -> bool) (s : t) : bool :=
  match lock alive (connection s) with
  | Some _ => false
  | None => true
  end.

Definition on_open (alive : nat -> bool) (hdl : connection_hdl) (s : t)
    : t * list event :=
  if expired alive s then
    (set_connection (Some hdl) s, [Cerr ("[INFO] Connection opened" +:+ newline)])
  else
    (s, [Cerr ("[WARNING] Rejecting connection" +:+ newline);
         ServerClose hdl subprotocol_error
           "Rejected connection; other client already present"]).

Definition close (alive : nat -> bool) (s : t) : t * list event :=
  if negb (expired alive s) then
    match connection s with
    | Some hdl =>
        (set_connection None s, [ServerClose hdl going_away "Exited from console"])
    | None => (s, [])
    end
  else (s, []).

Definition IceConnectionState_closes (st : IceConnectionState) : bool :=
  match st with
  | kIceConnectionClosed | kIceConnectionDisconnected | kIceConnectionFailed => true
  | _ => false
  end.

Definition IceConnectionState_name (st : IceConnectionState) : string :=
  match st with
  | kIceConnectionChecking => "Checking"
  | kIceConnectionClosed => "Closed"
  | kIceConnectionCompleted => "Completed"
  | kIceConnectionConnected => "Connected"
  | kIceConnectionDisconnected => "Disconnected"
  | kIceConnectionFailed => "Failed"
  | kIceConnectionMax => "Max"
  | kIceConnectionNew => "New"
  end.

(** The prefix is written first, then the lambda that picks the name runs
    (and closes for three of the states), then the name is written. *)
Definition OnStandardizedIceConnectionChange (alive : nat -> bool)
    (st : IceConnectionState) (s : t) : t * list event :=
  let closed := if IceConnectionState_closes st then close alive s else (s, []) in
  (fst closed,
   [Cerr "[INFO] ICE connection state change: "]
   ++ snd closed
   ++ [Cerr (IceConnectionState_name st); Cerr newline]).

(** Throwing parts of [on_message], after the two guards. *)
Definition read_frame (eng : engine) (body : option json)
    : list event + exn :=
  match parse body with
  | inr e => inr e
  | inl v =>
      match as_object v with
      | inr e => inr e
      | inl payload =>
          if contains payload "offer" then
            match as_object (member payload "offer") with
            | inr e => inr e
            | inl offer =>
                match as_string (member offer "type") with
                | inr e => inr e
                | inl type =>
                    match value (SdpTypeFromString type) with
                    | inr e => inr e
                    | inl sdp_type =>
                        match as_string (member offer "sdp") with
                        | inr e => inr e
                        | inl sdp =>
                            inl [PeerSetRemoteDescription sdp_type sdp;
                                 PeerCreateAnswer]
                        end
                    end
                end
            end
          else if contains payload "new-ice-candidate" then
            match as_object (member payload "new-ice-candidate") with
            | inr e => inr e
            | inl blob =>
                match as_string (member blob "sdpMid") with
                | inr e => inr e
                | inl mid =>
                    match as_int64 (member blob "sdpMLineIndex") with
                    | inr e => inr e
                    | inl index =>
                        match as_string (member blob "candidate") with
                        | inr e => inr e
                        | inl sdp =>
                            match CreateIceCandidate eng mid (to_int index) sdp with
                            | inr description =>
                                inl [Cerr ("Failed to parse ICE candidate: "
                                           +:+ description +:+ newline)]
                            | inl candidate => inl [PeerAddIceCandidate candidate]
                            end
                        end
                    end
                end
            end
          else inl []
      end
  end.

Definition on_message (alive : nat -> bool) (eng : engine)
    (hdl : connection_hdl) (msg : message_ptr) (s : t)
    : (unit + exn) * list event :=
  if negb (bool_decide (lock alive (Some hdl) = lock alive (connection s))) then
    (inl tt, [Cerr ("Wrong socket!" +:+ newline)])
  else if negb (get_opcode msg =? 1) then
    (inl tt, [Cerr ("I don't know how to use this frame" +:+ newline)])
  else
    match read_frame eng (get_payload msg) with
    | inl events => (inl tt, events)
    | inr e => (inr e, [])
    end.

End observer.

(** The receiver admits one signaling connection at a time, first come
    first served: once a socket has been admitted and for as long as it is
    alive, any number of further sockets leave the stored connection as it is,
    and each of them is turned away by a close with the "subprotocol error"
    status. *)
Theorem observer_first_connection_wins :
  forall (alive : nat -> bool) (first : nat) (later : list nat) (s : observer.t),
    observer.connection s = Some first ->
    alive first = true ->
    fold_left (fun s hdl => fst (observer.on_open alive hdl s)) later s = s
    /\ forall hdl : nat,
         snd (observer.on_open alive hdl s) =
         [observer.Cerr ("[WARNING] Rejecting connection" +:+ newline);
          observer.ServerClose hdl subprotocol_error
            "Rejected connection; other client already present"].
Proof.
  intros alive first later s Hc Halive.
  assert (Hstep : forall hdl,
             observer.on_open alive hdl s =
             (s, [observer.Cerr ("[WARNING] Rejecting connection" +:+ newline);
                  observer.ServerClose hdl subprotocol_error
                    "Rejected connection; other client already present"])).
  { intros hdl. unfold observer.on_open, observer.expired, observer.lock.
    now rewrite Hc, Halive. }
  split.
  - induction later as [|hdl later IH]; [reflexivity|].
    cbn [fold_left]. now rewrite Hstep.
  - intros hdl. now rewrite Hstep.
Qed.

Lemma observer_first_connection_wins_witness :
  fold_left (fun s hdl => fst (observer.on_open (fun _ => true) hdl s)) [2%nat; 3%nat]
    (fst (observer.on_open (fun _ => true) 1
            {| observer.connection := None; observer.track := None |})) =
  fst (observer.on_open (fun _ => true) 1
         {| observer.connection := None; observer.track := None |}).
Proof.
  apply (observer_first_connection_wins (fun _ => true) 1 [2%nat; 3%nat]
           (fst (observer.on_open (fun _ => true) 1
                   {| observer.connection := None; observer.track := None |}))
           eq_refl eq_refl).
Defined.

(** When the ICE connection goes to closed, disconnected or failed, the
    receiver closes its live signaling connection with "going away" and
    empties the slot, so the next socket is admitted; in every other ICE
    state the slot is not touched. *)
Theorem observer_ice_failure_frees_the_slot :
  forall (alive : nat -> bool) (st : observer.IceConnectionState)
         (current hdl : nat) (tr : option nat),
    alive current = true ->
    let s := {| observer.connection := Some current; observer.track := tr |} in
    let after := fst (observer.OnStandardizedIceConnectionChange alive st s) in
    if observer.IceConnectionState_closes st
    then after = {| observer.connection := None; observer.track := tr |}
         /\ observer.ServerClose current going_away "Exited from console"
            ∈ snd (observer.OnStandardizedIceConnectionChange alive st s)
         /\ fst (observer.on_open alive hdl after) =
            {| observer.connection := Some hdl; observer.track := tr |}
    else after = s
         /\ fst (observer.on_open alive hdl after) = s.
Proof.
  intros alive st current hdl tr Halive s after. subst s after.
  unfold observer.OnStandardizedIceConnectionChange, observer.close,
    observer.on_open, observer.expired, observer.lock.
  destruct st; cbn; rewrite ?Halive; cbn; repeat split;
    apply list_elem_of_In; cbn; auto.
Qed.

Lemma observer_ice_failure_frees_the_slot_witness :
  fst (observer.OnStandardizedIceConnectionChange (fun _ => true)
         observer.kIceConnectionFailed
         {| observer.connection := Some 1%nat; observer.track := None |}) =
  {| observer.connection := None; observer.track := None |}.
Proof.
  apply (observer_ice_failure_frees_the_slot (fun _ => true)
           observer.kIceConnectionFailed 1 2 None eq_refl).
Defined.

(** A frame that arrives on a live socket other than the stored connection
    (a turned-away socket that has not gone yet, or any socket when nothing is
    stored) is dropped with "Wrong socket!" before it is looked at: whatever
    its opcode and payload, nothing is thrown and the peer is not called. *)
Theorem observer_drops_frames_from_other_sockets :
  forall (alive : nat -> bool) (eng : engine) (hdl : nat) (msg : message_ptr)
         (s : observer.t),
    alive hdl = true ->
    observer.connection s <> Some hdl ->
    observer.on_message alive eng hdl msg s =
    (inl tt, [observer.Cerr ("Wrong socket!" +:+ newline)]).
Proof.
  intros alive eng hdl msg s Halive H. unfold observer.on_message, observer.lock.
  rewrite Halive. rewrite bool_decide_eq_false_2; [reflexivity|].
  destruct (observer.connection s) as [c|]; [|discriminate].
  destruct (alive c); [|discriminate]. congruence.
Qed.

Lemma observer_drops_frames_from_other_sockets_witness :
  observer.on_message (fun _ => true) healthy_engine 2
    {| get_opcode := 1; get_payload := None |}
    {| observer.connection := Some 1%nat; observer.track := None |} =
  (inl tt, [observer.Cerr ("Wrong socket!" +:+ newline)]).
Proof.
  apply (observer_drops_frames_from_other_sockets (fun _ => true) healthy_engine 2);
    [reflexivity | cbn; discriminate].
Defined.
